(** * A backtracking Sudoku solver (sudoku.py): model and verification

    The Python program builds a [Board] of nine [Row]s of nine [Cell]s from
    nine strings of digits and fills the empty cells by exhaustive
    depth-first backtracking.  This file embeds the data model, the
    validating constructors (with the exceptions they raise), the three
    queries [get_empty_cell], [get_column] and [is_valid], and the
    recursive, mutating [solve] as executable Rocq definitions, and proves
    the behaviour of the solver from them. *)

From Stdlib Require Import ZArith Bool Ascii String Lia ZifyBool.
From Stdlib Require Import Sorting.Sorted DecimalString.
From stdpp Require Import base tactics option list.

Local Open Scope Z_scope.

(** ** Exceptions and results *)

(** The exception classes a run of the program can meet.  [ShapeError] is
    the class named by the design notes for malformed grids; the Python
    module defines no such class and raises none. *)
Inductive exn : Set :=
| ValueError
| NameError
| IndexError
| AttributeError
| ShapeError.

(** A Python call either returns a value or raises. *)
Inductive result (A : Type) : Type :=
| Ok (a : A)
| Raise (e : exn).
Arguments Ok {A} a.
Arguments Raise {A} e.

#[global] Instance result_ret : MRet result := fun A a => Ok a.
#[global] Instance result_bind : MBind result :=
  fun A B f m => match m with Ok a => f a | Raise e => Raise e end.

(** [raise_unless c e]: the shape of every validator, [if not c: raise e]. *)
Definition raise_unless (c : bool) (e : exn) : result unit :=
  if c then Ok tt else Raise e.

(** [enumerate(l)], counting from [n]. *)
Fixpoint enumerate_from {A} (n : Z) (l : list A) : list (Z * A) :=
  match l with
  | [] => []
  | a :: l' => (n, a) :: enumerate_from (n + 1) l'
  end.
Definition enumerate {A} (l : list A) : list (Z * A) := enumerate_from 0 l.

(** [l[i]] for a Python list: negative indices count from the end, and an
    index outside [-len, len) raises IndexError. *)
Definition py_index {A} (l : list A) (i : Z) : result A :=
  let n := Z.of_nat (length l) in
  let k := if 0 <=? i then i else n + i in
  if (0 <=? k) && (k <? n)
  then match l !! Z.to_nat k with
       | Some a => Ok a
       | None => Raise IndexError
       end
  else Raise IndexError.

(** [any(f(c) for c in l)] is [existsb f l]. *)

(** ** Cell *)

Module Cell.

Record t : Set := mk { x : Z; y : Z; value : Z }.

(** What the program passes as [value]: an int (the solver's writes, or a
    direct construction) or a one-character string (an element of
    [list(row)]).  Characters are code points below 256. *)
Inductive arg : Set :=
| of_int (z : Z)
| of_char (c : ascii).

(** The converter [int]: on a one-character string it succeeds exactly on
    the decimal digits and raises ValueError otherwise. *)
Definition int (a : arg) : result Z :=
  match a with
  | of_int z => Ok z
  | of_char c =>
      let n := Z.of_nat (nat_of_ascii c) in
      if (48 <=? n) && (n <=? 57) then Ok (n - 48) else Raise ValueError
  end.

(** [x_range] and [y_range] build their message with the f-string
    [{x}] (resp. [{y}]); inside the method that name is neither a local
    nor a module global (the parameter is called [value]), so evaluating
    the message raises NameError before [ValueError(...)] is built. *)
Definition x_range (v : Z) : result unit :=
  raise_unless ((0 <=? v) && (v <? 9)) NameError.

Definition y_range (v : Z) : result unit :=
  raise_unless ((0 <=? v) && (v <? 9)) NameError.

(** [value_range] formats its own parameter [v]: a ValueError. *)
Definition value_range (v : Z) : result unit :=
  raise_unless ((0 <=? v) && (v <=? 9)) ValueError.

(** The generated [__init__]: store the attributes (running the
    converter), then run the validators in attribute order. *)
Definition init (x y : Z) (value : arg) : result t :=
  v ← int value;
  _ ← x_range x;
  _ ← y_range y;
  _ ← value_range v;
  Ok (mk x y v).

Definition from_str_value (x y : Z) (str_value : ascii) : result t :=
  init x y (of_char str_value).

Definition is_empty (c : t) : bool := value c =? 0.

(** [cell.value = v]: a plain attribute write (no converter, no validator
    runs on assignment). *)
Definition set_value (v : Z) (c : t) : t := mk (x c) (y c) v.

End Cell.

(** ** Row *)

Module Row.

Record t : Set := mk { ix : Z; cells : list Cell.t }.

Definition validate_ix (v : Z) : result unit :=
  raise_unless ((0 <=? v) && (v <? 9)) ValueError.

Definition validate_cells (v : list Cell.t) : result unit :=
  raise_unless (Nat.eqb (length v) 9) ValueError.

Definition init (ix : Z) (cells : list Cell.t) : result t :=
  _ ← validate_ix ix;
  _ ← validate_cells cells;
  Ok (mk ix cells).

Definition from_array (y : Z) (array : list ascii) : result t :=
  cells ← mapM (fun xv => Cell.from_str_value (fst xv) y (snd xv))
               (enumerate array);
  init y cells.

End Row.

(** ** Grid and Board *)

(** A cell object is referred to by its place in the board: index of its
    row in [rows], index in that row's [cells].  The back-references
    [cell.row], [row.board] and the shared [cell.grid] of the Python object
    graph are reads through such a reference, so that every view (row,
    column, grid) sees the current value of a cell. *)
Definition cellref : Set := (nat * nat)%type.

Module Grid.
Record t : Set := mk { cells : list cellref }.
End Grid.

Module Board.

Record t : Set := mk { rows : list Row.t }.

Definition validate_rows (v : list Row.t) : result unit :=
  raise_unless (Nat.eqb (length v) 9) ValueError.

(** The generated [__init__].  [__attrs_post_init__] then sets the
    back-references and creates the grids; both depend on the places of the
    cells only, never on their values, and are read off the board by
    [cell_at] and [grid] below. *)
Definition init (rows : list Row.t) : result t :=
  _ ← validate_rows rows;
  Ok (mk rows).

Definition from_array_of_strings (array : list string) : result t :=
  rows ← mapM (fun yrow => Row.from_array (fst yrow)
                             (list_ascii_of_string (snd yrow)))
              (enumerate array);
  init rows.

(** The cell object behind a reference. *)
Definition cell_at (b : t) (p : cellref) : option Cell.t :=
  match rows b !! fst p with
  | Some r => Row.cells r !! snd p
  | None => None
  end.

(** [l[start : start + 3]] of a Python list, as the indices it selects. *)
Definition slice3 {A} (l : list A) (start : nat) : list nat :=
  seq start (Nat.min 3 (length l - start)).

(** [__attrs_post_init__]: the grids in the order they are created, for
    [x] in 0, 3, 6 and, inside, [y] in 0, 3, 6; each holds the cells of
    [rows[y:y+3]] restricted to [cells[x:x+3]]. *)
Definition grid_cells (b : t) (x y : nat) : list cellref :=
  i ← slice3 (rows b) y;
  match rows b !! i with
  | Some row => (fun j => (i, j)) <$> slice3 (Row.cells row) x
  | None => []
  end.

Definition attrs_post_init (b : t) : list Grid.t :=
  x ← [0; 3; 6]%nat;
  y ← [0; 3; 6]%nat;
  [Grid.mk (grid_cells b x y)].

Definition cellref_eqb (p q : cellref) : bool :=
  Nat.eqb (fst p) (fst q) && Nat.eqb (snd p) (snd q).

(** [cell.grid]: the grid assigned last to the cell; a cell that no grid
    contains has no such attribute. *)
Definition grid (b : t) (p : cellref) : result Grid.t :=
  match find (fun g => existsb (cellref_eqb p) (Grid.cells g))
             (rev (attrs_post_init b)) with
  | Some g => Ok g
  | None => Raise AttributeError
  end.

Definition get_column (b : t) (i : Z) : result (list Cell.t) :=
  mapM (fun row => py_index (Row.cells row) i) (rows b).

(** [cell.column], the property [self.row.board.get_column(self.x)]. *)
Definition column (b : t) (c : Cell.t) : result (list Cell.t) :=
  get_column b (Cell.x c).

Fixpoint first_empty (cs : list Cell.t) (j : nat) : option nat :=
  match cs with
  | [] => None
  | c :: cs' => if Cell.is_empty c then Some j else first_empty cs' (S j)
  end.

Fixpoint first_empty_row (rs : list Row.t) (i : nat) : option cellref :=
  match rs with
  | [] => None
  | r :: rs' =>
      match first_empty (Row.cells r) 0 with
      | Some j => Some (i, j)
      | None => first_empty_row rs' (S i)
      end
  end.

(** The two nested loops of [get_empty_cell]; falling off the end returns
    None. *)
Definition get_empty_cell (b : t) : option cellref :=
  first_empty_row (rows b) 0.

(** [c.value == test_num] for the cell behind a reference. *)
Definition holds (b : t) (test_num : Z) (p : cellref) : bool :=
  match cell_at b p with
  | Some c => Cell.value c =? test_num
  | None => false
  end.

(** [is_valid(test_num, cell)].  A reference outside the board stands for
    no object; the model raises AttributeError there. *)
Definition is_valid (b : t) (test_num : Z) (p : cellref) : result bool :=
  match rows b !! fst p, cell_at b p with
  | Some row, Some cell =>
      if existsb (fun c => Cell.value c =? test_num) (Row.cells row)
      then Ok false
      else
        col ← column b cell;
        if existsb (fun c => Cell.value c =? test_num) col
        then Ok false
        else
          g ← grid b p;
          if existsb (holds b test_num) (Grid.cells g)
          then Ok false
          else Ok true
  | _, _ => Raise AttributeError
  end.

(** [cell.value = v] through a reference: the board afterwards. *)
Definition set_value (b : t) (p : cellref) (v : Z) : t :=
  mk (alter (fun r => Row.mk (Row.ix r)
                        (alter (Cell.set_value v) (snd p) (Row.cells r)))
            (fst p) (rows b)).

(** One write to a cell's [value]. *)
Definition event : Set := (cellref * Z)%type.

(** How a call of [solve] ends: it returns its flag, leaving the board
    and the writes it made, or an exception escapes, or the model's
    recursion budget ran out. *)
Inductive outcome : Set :=
| Returned (r : bool) (b : t) (trace : list event)
| Raised (e : exn)
| OutOfFuel.

(** The [for test_num in ...] loop of [solve] on the chosen [cell], with
    [rec] the recursive call [self.solve()]. *)
Fixpoint try_nums (rec : t -> outcome) (cell : cellref)
    (nums : list Z) (b : t) : outcome :=
  match nums with
  | [] => Returned false b []
  | test_num :: nums' =>
      match is_valid b test_num cell with
      | Raise e => Raised e
      | Ok false => try_nums rec cell nums' b
      | Ok true =>
          match rec (set_value b cell test_num) with
          | Returned true b' tr => Returned true b' ((cell, test_num) :: tr)
          | Returned false b' tr =>
              match try_nums rec cell nums' (set_value b' cell 0) with
              | Returned r b'' tr' =>
                  Returned r b'' ((cell, test_num) :: tr ++ (cell, 0) :: tr')
              | o => o
              end
          | o => o
          end
      end
  end.

(** [range(1, 10)]. *)
Definition candidates : list Z := [1; 2; 3; 4; 5; 6; 7; 8; 9].

(** [solve], with [fuel] bounding the depth of the recursion.
    [get_empty_cell] returns a cell object or None, and a cell object is
    always truthy, so [if not cell] is the test for None.  Each nested call
    is made with one more cell filled, so the depth never exceeds the
    number of empty cells plus one (at most 82, far below the interpreter's
    recursion limit); [solve_fuel_total] shows the budget given by [solve]
    is never exhausted. *)
Fixpoint solve_fuel (fuel : nat) (b : t) : outcome :=
  match fuel with
  | O => OutOfFuel
  | S fuel' =>
      match get_empty_cell b with
      | None => Returned true b []
      | Some cell => try_nums (solve_fuel fuel') cell candidates b
      end
  end.

(** The number of empty cells: each nested call has one fewer. *)
Definition empty_in_cell (c : Cell.t) : nat :=
  if Cell.is_empty c then 1%nat else 0%nat.
Definition empty_in_row (r : Row.t) : nat :=
  sum_list (empty_in_cell <$> Row.cells r).
Definition count_empty (b : t) : nat :=
  sum_list (empty_in_row <$> rows b).

Definition solve (b : t) : outcome := solve_fuel (S (count_empty b)) b.

End Board.

(** ** Boards as the constructor builds them *)

(** Every board returned by [from_array_of_strings] has nine rows of nine
    cells, each cell carrying its own column and row index and a digit. *)
Definition cell_ok (i j : nat) (c : Cell.t) : Prop :=
  Cell.x c = Z.of_nat j /\ Cell.y c = Z.of_nat i /\ 0 <= Cell.value c <= 9.

Definition row_ok (i : nat) (r : Row.t) : Prop :=
  Row.ix r = Z.of_nat i /\ length (Row.cells r) = 9%nat /\
  forall j c, Row.cells r !! j = Some c -> cell_ok i j c.

Definition wf (b : Board.t) : Prop :=
  length (Board.rows b) = 9%nat /\
  forall i r, Board.rows b !! i = Some r -> row_ok i r.

Definition in_board (p : cellref) : Prop := (fst p < 9)%nat /\ (snd p < 9)%nat.

(** The value a reference reads, 0 where it reads nothing. *)
Definition value_at (b : Board.t) (p : cellref) : Z :=
  match Board.cell_at b p with
  | Some c => Cell.value c
  | None => 0
  end.

(** Row-major order on references. *)
Definition row_major_lt (q p : cellref) : Prop :=
  (fst q < fst p)%nat \/ (fst q = fst p /\ (snd q < snd p)%nat).

(** The nine references of the 3x3 block around a reference. *)
Definition block_refs (p : cellref) : list cellref :=
  i ← seq (3 * (fst p / 3)) 3;
  (fun j => (i, j)) <$> seq (3 * (snd p / 3)) 3.

(** Two references share a block. *)
Definition same_block (p q : cellref) : Prop :=
  (fst p / 3 = fst q / 3 /\ snd p / 3 = snd q / 3)%nat.

(** Two references share a row, a column or a block. *)
Definition related (p q : cellref) : Prop :=
  fst p = fst q \/ snd p = snd q \/ same_block p q.

(** All 81 references of a 9x9 board, in row-major order. *)
Definition all_refs : list cellref :=
  i ← seq 0 9; (fun j => (i, j)) <$> seq 0 9.

(** The references of row [k], of column [k] and of block [k], blocks
    being numbered [(y / 3) * 3 + (x / 3)]. *)
Definition row_refs (k : nat) : list cellref := (fun j => (k, j)) <$> seq 0 9.
Definition col_refs (k : nat) : list cellref := (fun i => (i, k)) <$> seq 0 9.
Definition blk_refs (k : nat) : list cellref :=
  block_refs (3 * (k / 3), 3 * (k mod 3))%nat.

(** ** The search as a relation *)

(** [Solve b r b' tr]: a call of [solve] on board [b] returns [r], leaves
    the board [b'] and has made the writes [tr].  [Try cell nums b r b' tr]
    is the same for the loop over the candidates [nums] still to be tried
    on the chosen [cell]. *)
Inductive Solve : Board.t -> bool -> Board.t -> list Board.event -> Prop :=
| Solve_done b :
    Board.get_empty_cell b = None -> Solve b true b []
| Solve_cell b cell r b' tr :
    Board.get_empty_cell b = Some cell ->
    Try cell Board.candidates b r b' tr ->
    Solve b r b' tr
with Try : cellref -> list Z -> Board.t -> bool -> Board.t ->
           list Board.event -> Prop :=
| Try_none cell b : Try cell [] b false b []
| Try_skip cell n ns b r b' tr :
    Board.is_valid b n cell = Ok false ->
    Try cell ns b r b' tr ->
    Try cell (n :: ns) b r b' tr
| Try_found cell n ns b b' tr :
    Board.is_valid b n cell = Ok true ->
    Solve (Board.set_value b cell n) true b' tr ->
    Try cell (n :: ns) b true b' ((cell, n) :: tr)
| Try_back cell n ns b b1 tr1 r b' tr :
    Board.is_valid b n cell = Ok true ->
    Solve (Board.set_value b cell n) false b1 tr1 ->
    Try cell ns (Board.set_value b1 cell 0) r b' tr ->
    Try cell (n :: ns) b r b' ((cell, n) :: tr1 ++ (cell, 0) :: tr).

Scheme Solve_mut := Minimality for Solve Sort Prop
  with Try_mut := Minimality for Try Sort Prop.
Combined Scheme Solve_Try_ind from Solve_mut, Try_mut.

(** ** The notions of the specification *)

(** Block index of a cell, from its coordinates: [(y / 3) * 3 + (x / 3)]. *)
Definition block_index (c : Cell.t) : Z :=
  (Cell.y c / 3) * 3 + Cell.x c / 3.

(** Two cells lie in a common row, column or block. *)
Definition same_group (c c' : Cell.t) : Prop :=
  Cell.y c = Cell.y c' \/ Cell.x c = Cell.x c' \/
  block_index c = block_index c'.

(** The uniqueness constraints: no two distinct cells of a row, column or
    block share a nonzero value. *)
Definition consistent (b : Board.t) : Prop :=
  forall p q c c',
    p <> q -> Board.cell_at b p = Some c -> Board.cell_at b q = Some c' ->
    same_group c c' -> Cell.value c <> 0 -> Cell.value c <> Cell.value c'.

(** No cell is empty. *)
Definition full (b : Board.t) : Prop :=
  forall p c, Board.cell_at b p = Some c -> Cell.value c <> 0.

(** Among the cells selected by [G], exactly one holds the digit [d]. *)
Definition holds_once (b : Board.t) (G : Cell.t -> Prop) (d : Z) : Prop :=
  exists p c,
    Board.cell_at b p = Some c /\ G c /\ Cell.value c = d /\
    forall q c', Board.cell_at b q = Some c' -> G c' -> Cell.value c' = d ->
                 q = p.

(** Every row, column and block contains each digit 1-9 exactly once. *)
Definition solved (b : Board.t) : Prop :=
  forall k d, 0 <= k < 9 -> 1 <= d <= 9 ->
    holds_once b (fun c => Cell.y c = k) d /\
    holds_once b (fun c => Cell.x c = k) d /\
    holds_once b (fun c => block_index c = k) d.

(** [s] keeps every clue of [b]. *)
Definition extends (b s : Board.t) : Prop :=
  forall p, value_at b p <> 0 -> value_at s p = value_at b p.

(** A puzzle is solvable when some solved grid keeps its clues. *)
Definition solvable (b : Board.t) : Prop :=
  exists s, wf s /\ solved s /\ extends b s.

(** The uniqueness constraints, read through references. *)
Definition consistent_refs (b : Board.t) : Prop :=
  forall p q, in_board p -> in_board q -> p <> q -> related p q ->
              value_at b p <> 0 -> value_at b p <> value_at b q.

(** A full, constraint-satisfying grid that keeps the clues of [b]. *)
Definition completion (b s : Board.t) : Prop :=
  wf s /\ full s /\ consistent_refs s /\ extends b s.

(** The brute-force reference for [is_valid]: no cell other than the one
    at [p] that shares a row, column or block with it holds [n]. *)
Definition no_other_holds (b : Board.t) (p : cellref) (n : Z) : Prop :=
  forall c q c',
    Board.cell_at b p = Some c -> Board.cell_at b q = Some c' ->
    q <> p -> same_group c c' -> Cell.value c' <> n.

(** The same scan without the exception for the queried cell. *)
Definition no_cell_holds (b : Board.t) (p : cellref) (n : Z) : Prop :=
  forall c q c',
    Board.cell_at b p = Some c -> Board.cell_at b q = Some c' ->
    same_group c c' -> Cell.value c' <> n.

(** The trial placements a trace makes on one cell: the nonzero values
    written to it, in order. *)
Definition placements_on (cell : cellref) (tr : list Board.event) : list Z :=
  filter (fun v => v <> 0) (snd <$> filter (fun e => fst e = cell) tr).

(** Executable checks of the constraints, for concrete boards. *)
Definition relatedb (p q : cellref) : bool :=
  Nat.eqb (fst p) (fst q) || Nat.eqb (snd p) (snd q) ||
  (Nat.eqb (fst p / 3) (fst q / 3) && Nat.eqb (snd p / 3) (snd q / 3)).

Definition consistentb (b : Board.t) : bool :=
  forallb (fun p =>
    forallb (fun q =>
      Board.cellref_eqb p q || negb (relatedb p q) ||
      (value_at b p =? 0) || negb (value_at b p =? value_at b q))
    all_refs) all_refs.

Definition extendsb (b s : Board.t) : bool :=
  forallb (fun p => (value_at b p =? 0) || (value_at s p =? value_at b p))
          all_refs.

(** The values of a board, row by row. *)
Definition digits_of (b : Board.t) : list (list Z) :=
  (fun r => Cell.value <$> Row.cells r) <$> Board.rows b.

(** ** The classic puzzle of the end-to-end test *)

Definition classic_rows : list string :=
  ["003020600"; "900305001"; "001806400"; "008102900"; "700000008";
   "006708200"; "002609500"; "800203009"; "005010300"]%string.

Definition classic_solution : list string :=
  ["483921657"; "967345821"; "251876493"; "548132976"; "729564138";
   "136798245"; "372689514"; "814253769"; "695417382"]%string.

(** The board built from rows of digits (an empty board if construction
    raises). *)
Definition board_of_rows (array : list string) : Board.t :=
  match Board.from_array_of_strings array with
  | Ok b => b
  | Raise _ => Board.mk []
  end.

Definition classic_board : Board.t := board_of_rows classic_rows.
Definition classic_solved : Board.t := board_of_rows classic_solution.

(** The writes of a call that returned. *)
Definition trace_of (o : Board.outcome) : list Board.event :=
  match o with
  | Board.Returned _ _ tr => tr
  | _ => []
  end.

Definition classic_trace : list Board.event :=
  trace_of (Board.solve classic_board).

(** A puzzle with a forced conflict: the last two cells of the first row
    need 8 and 9, but column 7 already has an 8 and column 8 an 8 too. *)
Definition conflict_rows : list string :=
  ["123456700"; "000000000"; "000000000"; "000000080"; "000000008";
   "000000000"; "000000000"; "000000000"; "000000000"]%string.

Definition conflict_board : Board.t := board_of_rows conflict_rows.

(** A grid whose only clue is a 5 in the first cell. *)
Definition lone_rows : list string :=
  ["500000000"; "000000000"; "000000000"; "000000000"; "000000000";
   "000000000"; "000000000"; "000000000"; "000000000"]%string.

Definition lone_board : Board.t := board_of_rows lone_rows.

(** The classic puzzle with its first row one character short. *)
Definition short_rows : list string :=
  ["00302060"; "900305001"; "001806400"; "008102900"; "700000008";
   "006708200"; "002609500"; "800203009"; "005010300"]%string.

(** A full grid of fives: it breaks every constraint. *)
Definition fives_rows : list string :=
  ["555555555"; "555555555"; "555555555"; "555555555"; "555555555";
   "555555555"; "555555555"; "555555555"; "555555555"]%string.

Definition fives_board : Board.t := board_of_rows fives_rows.

(** Replaying a trace: the board after making its writes in order. *)
Definition replay (b : Board.t) (tr : list Board.event) : Board.t :=
  foldl (fun b e => Board.set_value b (fst e) (snd e)) b tr.

(** ** The rest of the module: display, loader and script *)


Definition newline : string := String "010"%char EmptyString.


(** [c.isspace()] for a code point below 256. *)
Definition py_isspace (c : ascii) : bool :=
  let n := nat_of_ascii c in
  ((9 <=? n) && (n <=? 13) || (28 <=? n) && (n <=? 32) ||
   (n =? 133) || (n =? 160))%nat.

Fixpoint lstrip_chars (l : list ascii) : list ascii :=
  match l with
  | [] => []
  | c :: l' => if py_isspace c then lstrip_chars l' else l
  end.

(** [s.strip()]: leading and trailing whitespace removed. *)
Definition py_strip (s : string) : string :=
  string_of_list_ascii
    (rev (lstrip_chars (rev (lstrip_chars (list_ascii_of_string s))))).

(** [line.startswith('G')]. *)
Definition startswith_G (line : string) : bool :=
  match line with
  | String c _ => Ascii.eqb c "G"%char
  | EmptyString => false
  end.

(** What a generator does when it is iterated to its end: it yields
    values, then stops, or raises in place of its next value. *)
Inductive generator : Set :=
| Stop
| Yield (board : Board.t) (rest : generator)
| Throw (e : exn).

(** [yield Board.from_array_of_strings(rows)], then [rest]. *)
Definition yield_board (rows : list string) (rest : generator) : generator :=
  match Board.from_array_of_strings rows with
  | Ok b => Yield b rest
  | Raise e => Throw e
  end.

(** The [for line in file] loop of the loader with the rows collected so
    far, and the final [yield] after it. *)
Fixpoint read_lines (rows : list string) (file : list string) : generator :=
  match file with
  | [] => yield_board rows Stop
  | line :: file' =>
      if startswith_G line
      then yield_board rows (read_lines [] file')
      else read_lines (rows ++ [py_strip line]) file'
  end.

(** [generate_board_from_file_path], on the lines the opened file
    delivers (each with its line terminator); [file.readline()] drops the
    first. *)
Definition generate_board_from_file_path (file : list string) : generator :=
  read_lines [] (tail file).

(** The boards a generator yields, and the exception that ends it. *)
Fixpoint gen_boards (g : generator) : list Board.t :=
  match g with
  | Yield b rest => b :: gen_boards rest
  | _ => []
  end.

Fixpoint gen_end (g : generator) : option exn :=
  match g with
  | Stop => None
  | Yield _ rest => gen_end rest
  | Throw e => Some e
  end.

(** How the script ends: it prints the sum, or the assertion on the
    result of [solve] fails (its message shows the board), or another
    exception escapes, or the model's recursion budget ran out. *)
Inductive script_outcome : Set :=
| Printed (summed : Z)
| AssertionFailed (board : Board.t)
| Uncaught (e : exn)
| BudgetExhausted.

(** [sum(cell.value for cell in board.rows[0].cells[0:3])]. *)
Definition corner_sum (b : Board.t) : result Z :=
  match Board.rows b !! 0%nat with
  | Some row =>
      Ok (foldl Z.add 0 (Cell.value <$> take 3 (Row.cells row)))
  | None => Raise IndexError
  end.

(** The loop of the script over the boards of the generator. *)
Fixpoint main_loop (summed : Z) (g : generator) : script_outcome :=
  match g with
  | Stop => Printed summed
  | Throw e => Uncaught e
  | Yield board rest =>
      match Board.solve board with
      | Board.Returned true b' _ =>
          match corner_sum b' with
          | Ok s => main_loop (summed + s) rest
          | Raise e => Uncaught e
          end
      | Board.Returned false b' _ => AssertionFailed b'
      | Board.Raised e => Uncaught e
      | Board.OutOfFuel => BudgetExhausted
      end
  end.

Definition main (file : list string) : script_outcome :=
  main_loop 0 (generate_board_from_file_path file).

(** ** Further notions for the properties *)

Definition is_digit (ch : ascii) : bool :=
  (48 <=? Z.of_nat (nat_of_ascii ch)) && (Z.of_nat (nat_of_ascii ch) <=? 57).

Definition digit_of_char (ch : ascii) : Z := Z.of_nat (nat_of_ascii ch) - 48.

Definition char_of_digit (v : Z) : ascii := ascii_of_nat (Z.to_nat (48 + v)).

(** The digits of rows of characters. *)
Definition digits_of_rows (array : list string) : list (list Z) :=
  (fun row => digit_of_char <$> list_ascii_of_string row) <$> array.

(** The rows of characters of a grid of digits. *)
Definition rows_of_digits (g : list (list Z)) : list string :=
  (fun vs => string_of_list_ascii (char_of_digit <$> vs)) <$> g.

(** The board with the given digits, every cell at its own place. *)
Definition board_of_digits (g : list (list Z)) : Board.t :=
  Board.mk
    (imap (fun i vs =>
             Row.mk (Z.of_nat i)
                    (imap (fun j v => Cell.mk (Z.of_nat j) (Z.of_nat i) v) vs))
          g).



(** [b'] comes no later than [s] in the row-major lexicographic order of
    the grids. *)
Definition lex_le (b' s : Board.t) : Prop :=
  (forall p, in_board p -> value_at b' p = value_at s p) \/
  exists p, in_board p /\ value_at b' p < value_at s p /\
    forall q, in_board q -> row_major_lt q p -> value_at b' q = value_at s q.

(** The lines of a puzzle file: a header, then the rows of each puzzle,
    each row followed by its line terminator, and a separator line before
    every puzzle but the first. *)
Definition puzzle_lines (eol : string) (rows : list string) : list string :=
  (fun row => String.append row eol) <$> rows.

Definition file_of (header eol : string) (first : list string)
    (more : list (string * list string)) : list string :=
  header :: puzzle_lines eol first ++
  (sp ← more; fst sp :: puzzle_lines eol (snd sp)).

(** The classic puzzle with a letter in its first row. *)
Definition letter_rows : list string :=
  ["0030A0600"; "900305001"; "001806400"; "008102900"; "700000008";
   "006708200"; "002609500"; "800203009"; "005010300"]%string.

(** A file of two puzzles, and a file whose only puzzle has the forced
    conflict. *)
Definition sample_file : list string :=
  file_of (String.append "Grid 01" newline) newline classic_rows
          [(String.append "Grid 02" newline, classic_solution)].

Definition conflict_file : list string :=
  file_of (String.append "Grid 01" newline) newline conflict_rows [].

(** The number of separator lines among the lines of a file. *)
Definition separators (file : list string) : nat :=
  length (List.filter startswith_G file).

(** The generator that yields the given boards and stops. *)
Definition yields (bs : list Board.t) : generator := foldr Yield Stop bs.

(** * Properties *)

(** ** Reading and writing through references *)

Lemma cell_at_set_value b p q v :
  Board.cell_at (Board.set_value b p v) q =
  if decide (p = q) then Cell.set_value v <$> Board.cell_at b p
  else Board.cell_at b q.
Proof.
  destruct p as [i j], q as [i' j']. unfold Board.cell_at, Board.set_value.
  simpl. rewrite list_lookup_alter.
  destruct (decide (i = i')) as [->|Hi].
  - destruct (Board.rows b !! i') as [r|] eqn:Hr; simpl.
    + rewrite list_lookup_alter.
      destruct (decide (j = j')) as [->|Hj].
      * rewrite decide_True by done. done.
      * rewrite decide_False by congruence. done.
    + by destruct (decide _).
  - rewrite decide_False by congruence. done.
Qed.

Lemma cell_at_set_value_eq b p v c :
  Board.cell_at b p = Some c ->
  Board.cell_at (Board.set_value b p v) p = Some (Cell.set_value v c).
Proof. intros H. rewrite cell_at_set_value, decide_True, H; done. Qed.

Lemma cell_at_set_value_ne b p q v :
  p <> q -> Board.cell_at (Board.set_value b p v) q = Board.cell_at b q.
Proof. intros H. rewrite cell_at_set_value, decide_False; done. Qed.

Lemma value_at_set_value_ne b p q v :
  p <> q -> value_at (Board.set_value b p v) q = value_at b q.
Proof. intros H. unfold value_at. by rewrite cell_at_set_value_ne. Qed.

Lemma value_at_set_value_eq b p v c :
  Board.cell_at b p = Some c -> value_at (Board.set_value b p v) p = v.
Proof. intros H. unfold value_at. by rewrite (cell_at_set_value_eq _ _ _ c). Qed.

Lemma holds_value_at b n p :
  n <> 0 -> Board.holds b n p = true <-> value_at b p = n.
Proof.
  intros Hn. unfold Board.holds, value_at.
  destruct (Board.cell_at b p); [apply Z.eqb_eq|]. split; [done|congruence].
Qed.

Lemma wf_cell_at b p :
  wf b -> in_board p ->
  exists c, Board.cell_at b p = Some c /\ cell_ok (fst p) (snd p) c.
Proof.
  intros [Hlen Hrows] [Hi Hj]. destruct p as [i j]; simpl in *.
  destruct (lookup_lt_is_Some_2 (Board.rows b) i) as [r Hr]; [lia|].
  destruct (Hrows i r Hr) as (_ & Hl & Hc).
  destruct (lookup_lt_is_Some_2 (Row.cells r) j) as [c Hcj]; [lia|].
  exists c. unfold Board.cell_at. simpl. rewrite Hr. eauto.
Qed.

Lemma cell_at_in_board b p c :
  wf b -> Board.cell_at b p = Some c -> in_board p /\ cell_ok (fst p) (snd p) c.
Proof.
  intros [Hlen Hrows]. destruct p as [i j]. unfold Board.cell_at; simpl.
  destruct (Board.rows b !! i) as [r|] eqn:Hr; [|done]. intros Hc.
  destruct (Hrows i r Hr) as (_ & Hl & Hok).
  apply lookup_lt_Some in Hr. pose proof (lookup_lt_Some _ _ _ Hc).
  split; [split; simpl; lia|]. by apply Hok.
Qed.

Lemma wf_set_value b p v :
  wf b -> 0 <= v <= 9 -> wf (Board.set_value b p v).
Proof.
  intros [Hlen Hrows] Hv. destruct p as [i j]. split.
  - simpl. by rewrite length_alter.
  - intros i' r'. simpl. rewrite list_lookup_alter.
    destruct (decide (i = i')) as [->|Hi]; [|by apply Hrows].
    destruct (Board.rows b !! i') as [r|] eqn:Hr; [|done].
    simpl. intros [= <-]. destruct (Hrows i' r Hr) as (Hix & Hl & Hok).
    split; [done|]. split; [simpl; by rewrite length_alter|].
    intros j' c'. simpl. rewrite list_lookup_alter.
    destruct (decide (j = j')) as [->|Hj]; [|by apply Hok].
    destruct (Row.cells r !! j') as [c|] eqn:Hc; [|done].
    simpl. intros [= <-]. destruct (Hok j' c Hc) as (? & ? & ?).
    unfold cell_ok, Cell.set_value. simpl. done.
Qed.

(** Writing 0 back to a cell that held 0 before the trial write restores
    the board exactly. *)
Lemma set_value_revert b p n c :
  Board.cell_at b p = Some c -> Cell.value c = 0 ->
  Board.set_value (Board.set_value b p n) p 0 = b.
Proof.
  destruct p as [i j], b as [rs]. unfold Board.cell_at, Board.set_value.
  simpl. intros H Hv. f_equal. rewrite list_alter_alter_eq.
  destruct (rs !! i) as [r|] eqn:Hr; [|done].
  apply list_eq. intros k. rewrite list_lookup_alter.
  destruct (decide (i = k)) as [->|]; [|done]. rewrite Hr. simpl.
  destruct r as [ix cs]. simpl in *. do 2 f_equal.
  rewrite list_alter_alter_eq. apply list_eq. intros k'.
  rewrite list_lookup_alter. destruct (decide (j = k')) as [->|]; [|done].
  rewrite H. simpl. destruct c; simpl in *. by subst.
Qed.

(** ** The scan for the next empty cell *)

Lemma first_empty_Some cs j0 j :
  Board.first_empty cs j0 = Some j ->
  exists k c, j = (j0 + k)%nat /\ cs !! k = Some c /\ Cell.value c = 0 /\
    forall k' c', (k' < k)%nat -> cs !! k' = Some c' -> Cell.value c' <> 0.
Proof.
  revert j0. induction cs as [|c cs IH]; intros j0; simpl; [done|].
  unfold Cell.is_empty. destruct (Z.eqb_spec (Cell.value c) 0) as [Hz|Hz].
  - intros [= <-]. exists 0%nat, c. repeat split; auto with lia.
  - intros H. destruct (IH _ H) as (k & c0 & -> & Hk & Hv & Hlt).
    exists (S k), c0. repeat split; auto with lia.
    intros [|k'] c'; simpl; [congruence|]. intros ?. apply Hlt. lia.
Qed.

Lemma first_empty_None cs j0 :
  Board.first_empty cs j0 = None <->
  forall k c, cs !! k = Some c -> Cell.value c <> 0.
Proof.
  revert j0. induction cs as [|c cs IH]; intros j0; simpl; [done|].
  unfold Cell.is_empty. destruct (Z.eqb_spec (Cell.value c) 0) as [Hz|Hz].
  - split; [done|]. intros H. by destruct (H 0%nat c).
  - rewrite IH. split.
    + intros H [|k] c'; simpl; [congruence|apply H].
    + intros H k c'. apply (H (S k)).
Qed.

Lemma first_empty_row_Some rs i0 p :
  Board.first_empty_row rs i0 = Some p ->
  exists k r c, fst p = (i0 + k)%nat /\ rs !! k = Some r /\
    Row.cells r !! snd p = Some c /\ Cell.value c = 0 /\
    (forall j' c', (j' < snd p)%nat -> Row.cells r !! j' = Some c' ->
                   Cell.value c' <> 0) /\
    (forall k' r' j' c', (k' < k)%nat -> rs !! k' = Some r' ->
                   Row.cells r' !! j' = Some c' -> Cell.value c' <> 0).
Proof.
  revert i0. induction rs as [|r rs IH]; intros i0; simpl; [done|].
  destruct (Board.first_empty (Row.cells r) 0) as [j|] eqn:Hj.
  - intros [= <-]. apply first_empty_Some in Hj as (k & c & -> & ? & ? & ?).
    exists 0%nat, r, c. simpl. repeat split; auto with lia.
  - intros H. destruct (IH _ H) as (k & r0 & c & Hp & ? & ? & ? & ? & Hlt).
    exists (S k), r0, c. repeat split; auto with lia.
    intros [|k'] r' j' c'; simpl.
    + intros _ [= <-]. apply (proj1 (first_empty_None _ _) Hj).
    + intros ?. apply Hlt. lia.
Qed.

Lemma first_empty_row_None rs i0 :
  Board.first_empty_row rs i0 = None <->
  forall k r j c, rs !! k = Some r -> Row.cells r !! j = Some c ->
                  Cell.value c <> 0.
Proof.
  revert i0. induction rs as [|r rs IH]; intros i0; simpl; [done|].
  destruct (Board.first_empty (Row.cells r) 0) as [j|] eqn:Hj.
  - split; [done|]. intros H.
    apply first_empty_Some in Hj as (k & c & _ & Hk & Hv & _).
    by destruct (H 0%nat r k c).
  - rewrite IH. rewrite first_empty_None in Hj. split.
    + intros H [|k] r' j c; simpl; [intros [= <-]; apply Hj|apply H].
    + intros H k r' j c. apply (H (S k)).
Qed.

Lemma get_empty_cell_Some b p :
  Board.get_empty_cell b = Some p ->
  exists c, Board.cell_at b p = Some c /\ Cell.value c = 0 /\
    forall q c', row_major_lt q p -> Board.cell_at b q = Some c' ->
                 Cell.value c' <> 0.
Proof.
  intros H. apply first_empty_row_Some in H
    as (k & r & c & Hp & Hr & Hc & Hv & Hrow & Hbefore).
  simpl in Hp. subst k. exists c. unfold Board.cell_at. rewrite Hr.
  repeat split; [done..|]. intros [i' j'] c' [Hlt|[Heq Hlt]]; simpl in *.
  - destruct (Board.rows b !! i') as [r'|] eqn:Hr'; [|done].
    by apply (Hbefore i' r').
  - subst i'. rewrite Hr. by apply Hrow.
Qed.

Lemma get_empty_cell_None b :
  Board.get_empty_cell b = None <->
  forall q c, Board.cell_at b q = Some c -> Cell.value c <> 0.
Proof.
  unfold Board.get_empty_cell. rewrite first_empty_row_None. split.
  - intros H [i j] c. unfold Board.cell_at. simpl.
    destruct (Board.rows b !! i) as [r|] eqn:Hr; [|done]. by apply H with i.
  - intros H k r j c Hr Hc. apply (H (k, j)). unfold Board.cell_at.
    simpl. by rewrite Hr.
Qed.

Lemma full_iff b : full b <-> Board.get_empty_cell b = None.
Proof. symmetry. apply get_empty_cell_None. Qed.

(** ** The measure of the recursion *)

Lemma sum_list_alter {A} (m : A -> nat) (g : A -> A) l i a :
  l !! i = Some a ->
  (sum_list (m <$> alter g i l) + m a = sum_list (m <$> l) + m (g a))%nat.
Proof.
  revert i. induction l as [|a' l IH]; intros [|i]; simpl; try done.
  - intros [= ->]. lia.
  - intros H. specialize (IH _ H). unfold fmap, alter in IH. lia.
Qed.

Lemma count_empty_set_value b p n c :
  Board.cell_at b p = Some c -> Cell.value c = 0 -> n <> 0 ->
  S (Board.count_empty (Board.set_value b p n)) = Board.count_empty b.
Proof.
  destruct p as [i j]. unfold Board.cell_at, Board.count_empty. simpl.
  destruct (Board.rows b !! i) as [r|] eqn:Hr; [|done]. intros Hc Hv Hn.
  pose proof (sum_list_alter Board.empty_in_row
    (fun r => Row.mk (Row.ix r) (alter (Cell.set_value n) j (Row.cells r)))
    _ _ _ Hr) as H1.
  pose proof (sum_list_alter Board.empty_in_cell
    (Cell.set_value n) _ _ _ Hc) as H2.
  assert (Board.empty_in_row r =
          sum_list (Board.empty_in_cell <$> Row.cells r)) as E1 by done.
  assert (Board.empty_in_row
            (Row.mk (Row.ix r) (alter (Cell.set_value n) j (Row.cells r))) =
          sum_list (Board.empty_in_cell <$>
                    alter (Cell.set_value n) j (Row.cells r))) as E2 by done.
  assert (Board.empty_in_cell c = 1%nat) as Hc1.
  { unfold Board.empty_in_cell, Cell.is_empty. by rewrite Hv. }
  assert (Board.empty_in_cell (Cell.set_value n c) = 0%nat) as Hc0.
  { unfold Board.empty_in_cell, Cell.is_empty. simpl.
    by destruct (Z.eqb_spec n 0). }
  lia.
Qed.

(** ** Rows, columns and grids of a constructed board *)

Lemma mapM_result_cons {A B} (f : A -> result B) a l :
  mapM f (a :: l) =
  match f a with
  | Ok y => match mapM f l with Ok k => Ok (y :: k) | Raise e => Raise e end
  | Raise e => Raise e
  end.
Proof. reflexivity. Qed.

Lemma existsb_true_lookup {A} (f : A -> bool) l :
  existsb f l = true -> exists k a, l !! k = Some a /\ f a = true.
Proof.
  induction l as [|a l IH]; simpl; [done|].
  destruct (f a) eqn:Hf; simpl.
  - intros _. by exists 0%nat, a.
  - intros H. destruct (IH H) as (k & a' & ? & ?). by exists (S k), a'.
Qed.

Lemma existsb_false_lookup {A} (f : A -> bool) l k a :
  existsb f l = false -> l !! k = Some a -> f a = false.
Proof.
  revert k. induction l as [|a' l IH]; intros k; simpl; [done|].
  intros [H1 H2]%orb_false_elim. destruct k as [|k]; simpl.
  - by intros [= <-].
  - by apply IH.
Qed.

Lemma py_index_nat {A} (l : list A) j a :
  l !! j = Some a -> py_index l (Z.of_nat j) = Ok a.
Proof.
  intros H. pose proof (lookup_lt_Some _ _ _ H) as Hlt. unfold py_index.
  cbv zeta. destruct (Z.leb_spec 0 (Z.of_nat j)); [|lia].
  destruct (Z.leb_spec 0 (Z.of_nat j)); [|lia].
  destruct (Z.ltb_spec (Z.of_nat j) (Z.of_nat (length l))); [|lia].
  simpl. by rewrite Nat2Z.id, H.
Qed.

Lemma get_column_rows rs j :
  (forall i r, rs !! i = Some r -> (j < length (Row.cells r))%nat) ->
  exists col, mapM (fun row => py_index (Row.cells row) (Z.of_nat j)) rs = Ok col /\
    forall i, col !! i = match rs !! i with
                         | Some r => Row.cells r !! j
                         | None => None
                         end.
Proof.
  induction rs as [|r rs IH]; intros Hlen.
  - exists []. split; [done|]. by intros [|i].
  - destruct IH as (col & Hcol & Hlook).
    { intros i r'. apply (Hlen (S i)). }
    destruct (lookup_lt_is_Some_2 (Row.cells r) j) as [c Hc].
    { by apply (Hlen 0%nat). }
    exists (c :: col). rewrite mapM_result_cons, (py_index_nat _ _ _ Hc), Hcol.
    split; [done|]. intros [|i]; simpl; [done|apply Hlook].
Qed.

Lemma get_column_wf b j :
  wf b -> (j < 9)%nat ->
  exists col, Board.get_column b (Z.of_nat j) = Ok col /\
    forall i, col !! i = Board.cell_at b (i, j).
Proof.
  intros [Hlen Hrows] Hj. apply get_column_rows. intros i r Hr.
  destruct (Hrows i r Hr) as (_ & -> & _). done.
Qed.

Lemma grid_row_wf b i x :
  wf b -> (i < 9)%nat -> (x <= 6)%nat ->
  match Board.rows b !! i with
  | Some row => (fun j => (i, j)) <$> Board.slice3 (Row.cells row) x
  | None => []
  end = (fun j => (i, j)) <$> seq x 3.
Proof.
  intros [Hlen Hrows] Hi Hx.
  destruct (lookup_lt_is_Some_2 (Board.rows b) i) as [r Hr]; [lia|].
  rewrite Hr. destruct (Hrows i r Hr) as (_ & Hl & _).
  unfold Board.slice3. rewrite Hl. by replace (Nat.min 3 (9 - x)) with 3%nat by lia.
Qed.

Lemma grid_cells_wf b x y :
  wf b -> (x <= 6)%nat -> (y <= 6)%nat ->
  Board.grid_cells b x y = (i ← seq y 3; (fun j => (i, j)) <$> seq x 3).
Proof.
  intros Hwf Hx Hy. unfold Board.grid_cells, Board.slice3.
  destruct Hwf as [Hlen Hrows]. rewrite Hlen.
  replace (Nat.min 3 (9 - y)) with 3%nat by lia.
  change (seq y 3) with [y; S y; S (S y)]. cbn [mbind list_bind].
  rewrite !(grid_row_wf b _ x) by (done || lia). done.
Qed.

Lemma attrs_post_init_wf b :
  wf b ->
  Board.attrs_post_init b =
  (x ← [0; 3; 6]%nat; y ← [0; 3; 6]%nat; [Grid.mk (block_refs (y, x))]).
Proof.
  intros Hwf. unfold Board.attrs_post_init. cbn [mbind list_bind app].
  rewrite !(grid_cells_wf b) by (done || lia). reflexivity.
Qed.

Lemma grid_wf b p :
  wf b -> in_board p -> Board.grid b p = Ok (Grid.mk (block_refs p)).
Proof.
  intros Hwf [Hi Hj]. unfold Board.grid. rewrite (attrs_post_init_wf b Hwf).
  destruct p as [i j]. simpl in Hi, Hj.
  do 9 (destruct i as [|i];
        [do 9 (destruct j as [|j]; [vm_compute; reflexivity|]); lia|]).
  lia.
Qed.

Lemma block_range (a b : nat) :
  (3 * (a / 3) <= b < 3 * (a / 3) + 3)%nat <-> (a / 3 = b / 3)%nat.
Proof.
  pose proof (Nat.div_mod_eq b 3). pose proof (Nat.mod_upper_bound b 3). lia.
Qed.

Lemma elem_of_block_refs p q :
  q ∈ block_refs p <-> same_block p q.
Proof.
  unfold block_refs, same_block. rewrite list_elem_of_bind.
  rewrite <- !block_range. split.
  - intros (i & Hq & Hi). apply list_elem_of_fmap in Hq as (j & -> & Hj).
    apply elem_of_seq in Hi, Hj. cbn [fst snd]. lia.
  - intros [H1 H2]. exists (fst q). split.
    + apply list_elem_of_fmap. exists (snd q). split; [by destruct q|].
      apply elem_of_seq. lia.
    + apply elem_of_seq. lia.
Qed.

Lemma same_block_in_board p q : in_board p -> same_block p q -> in_board q.
Proof.
  unfold in_board, same_block. rewrite <- !block_range.
  pose proof (Nat.div_mod_eq (fst p) 3). pose proof (Nat.div_mod_eq (snd p) 3).
  lia.
Qed.

(** What [is_valid] computes on a constructed board: it always returns,
    and returns True exactly when no cell sharing a row, a column or a block
    with the queried cell (the queried cell included) holds [test_num]. *)
Lemma is_valid_spec b n p :
  wf b -> in_board p ->
  exists v, Board.is_valid b n p = Ok v /\
    (v = true <->
     forall q, in_board q -> related p q -> Board.holds b n q = false).
Proof.
  intros Hwf Hp.
  destruct (wf_cell_at b p Hwf Hp) as (c & Hc & Hx & Hy & Hv).
  destruct p as [i j]. destruct Hp as [Hi Hj]. simpl in *.
  unfold Board.is_valid. rewrite Hc. simpl.
  destruct (Board.rows b !! i) as [r|] eqn:Hr;
    [|unfold Board.cell_at in Hc; simpl in Hc; by rewrite Hr in Hc].
  assert (forall j', Row.cells r !! j' = Board.cell_at b (i, j')) as Hrow.
  { intros j'. unfold Board.cell_at. simpl. by rewrite Hr. }
  destruct (existsb _ (Row.cells r)) eqn:Erow.
  { exists false. split; [done|]. split; [done|]. intros H.
    apply existsb_true_lookup in Erow as (j' & c' & Hc' & Heq).
    rewrite Hrow in Hc'.
    destruct (cell_at_in_board b _ _ Hwf Hc') as [Hin _].
    specialize (H (i, j') Hin (or_introl eq_refl)).
    unfold Board.holds in H. rewrite Hc' in H. congruence. }
  unfold Board.column. rewrite Hx.
  destruct (get_column_wf b j Hwf Hj) as (col & -> & Hcol). simpl.
  destruct (existsb _ col) eqn:Ecol.
  { exists false. split; [done|]. split; [done|]. intros H.
    apply existsb_true_lookup in Ecol as (i' & c' & Hc' & Heq).
    rewrite Hcol in Hc'.
    destruct (cell_at_in_board b _ _ Hwf Hc') as [Hin _].
    specialize (H (i', j) Hin (or_intror (or_introl eq_refl))).
    unfold Board.holds in H. rewrite Hc' in H. congruence. }
  rewrite (grid_wf b (i, j) Hwf) by done. cbn [mbind result_bind Grid.cells].
  destruct (existsb _ (block_refs (i, j))) eqn:Eblk.
  { exists false. split; [done|]. split; [done|]. intros H.
    apply existsb_true_lookup in Eblk as (k & q & Hq & Heq).
    apply list_elem_of_lookup_2, elem_of_block_refs in Hq.
    rewrite H in Heq; [done| |by right; right].
    by apply (same_block_in_board (i, j)). }
  exists true. split; [done|]. split; [|done]. intros _ q Hq Hrel.
  destruct (wf_cell_at b q Hwf Hq) as (c' & Hc' & _).
  destruct q as [i' j']. destruct Hrel as [Hr1|[Hr2|Hr3]]; cbn [fst snd] in *.
  - subst i'. unfold Board.holds. rewrite Hc'. rewrite <- Hrow in Hc'.
    apply (existsb_false_lookup _ _ _ _ Erow Hc').
  - subst j'. unfold Board.holds. rewrite Hc'. rewrite <- Hcol in Hc'.
    apply (existsb_false_lookup _ _ _ _ Ecol Hc').
  - apply elem_of_block_refs, list_elem_of_lookup_1 in Hr3 as [k Hk].
    apply (existsb_false_lookup _ _ _ _ Eblk Hk).
Qed.

(** ** The executable solver against the relation *)

Lemma try_nums_Solve (rec : Board.t -> Board.outcome) cell :
  (forall b r b' tr, rec b = Board.Returned r b' tr -> Solve b r b' tr) ->
  forall nums b r b' tr,
    Board.try_nums rec cell nums b = Board.Returned r b' tr ->
    Try cell nums b r b' tr.
Proof.
  intros Hrec. induction nums as [|n ns IH]; intros b r b' tr; simpl.
  - intros [= <- <- <-]. constructor.
  - destruct (Board.is_valid b n cell) as [[|]|] eqn:Hv; [| |done].
    + destruct (rec (Board.set_value b cell n)) as [[|] b1 tr1| |] eqn:Hr;
        [| |done..].
      * intros [= <- <- <-]. apply Try_found; auto.
      * destruct (Board.try_nums rec cell ns (Board.set_value b1 cell 0))
          as [r2 b2 tr2| |] eqn:Ht; [|done..].
        intros [= <- <- <-]. eapply Try_back; eauto.
    + intros H. apply Try_skip; auto.
Qed.

Lemma solve_fuel_S fuel b :
  Board.solve_fuel (S fuel) b =
  match Board.get_empty_cell b with
  | None => Board.Returned true b []
  | Some cell => Board.try_nums (Board.solve_fuel fuel) cell Board.candidates b
  end.
Proof. reflexivity. Qed.

Lemma solve_fuel_Solve fuel b r b' tr :
  Board.solve_fuel fuel b = Board.Returned r b' tr -> Solve b r b' tr.
Proof.
  revert b r b' tr. induction fuel as [|fuel IH]; intros b r b' tr;
    [done|]. rewrite solve_fuel_S.
  destruct (Board.get_empty_cell b) as [cell|] eqn:He.
  - intros H. eapply Solve_cell; [done|]. by eapply try_nums_Solve.
  - intros [= <- <- <-]. by constructor.
Qed.

(** A failed search undoes all its writes. *)
Lemma Solve_Try_revert :
  (forall b r b' tr, Solve b r b' tr -> r = false -> b' = b) /\
  (forall cell ns b r b' tr, Try cell ns b r b' tr ->
     forall c, Board.cell_at b cell = Some c -> Cell.value c = 0 ->
     r = false -> b' = b).
Proof.
  apply Solve_Try_ind.
  - done.
  - intros b cell r b' tr He _ IH Hr.
    apply get_empty_cell_Some in He as (c & Hc & Hv & _). eauto.
  - done.
  - eauto.
  - done.
  - intros cell n ns b b1 tr1 r b' tr _ _ IH1 _ IH2 c Hc Hv Hr.
    rewrite (IH1 eq_refl) in IH2.
    rewrite (set_value_revert b cell n c Hc Hv) in IH2. eauto.
Qed.

Lemma Solve_revert b b' tr : Solve b false b' tr -> b' = b.
Proof. intros H. by eapply (proj1 Solve_Try_revert). Qed.



(** ** Cell coordinates and references *)

Lemma block_index_nat i j c :
  cell_ok i j c ->
  block_index c = Z.of_nat (i / 3 * 3 + j / 3).
Proof.
  intros (Hx & Hy & _). unfold block_index. rewrite Hx, Hy.
  rewrite Nat2Z.inj_add, Nat2Z.inj_mul, !Nat2Z.inj_div. done.
Qed.

Lemma same_group_related b p q c c' :
  wf b -> Board.cell_at b p = Some c -> Board.cell_at b q = Some c' ->
  same_group c c' <-> related p q.
Proof.
  intros Hwf Hc Hc'.
  destruct (cell_at_in_board b p c Hwf Hc) as [[Hp1 Hp2] Hok].
  destruct (cell_at_in_board b q c' Hwf Hc') as [[Hq1 Hq2] Hok'].
  unfold same_group, related, same_block.
  rewrite (block_index_nat _ _ _ Hok), (block_index_nat _ _ _ Hok').
  destruct Hok as (-> & -> & _), Hok' as (-> & -> & _).
  pose proof (Nat.Div0.div_lt_upper_bound (snd p) 3 3).
  pose proof (Nat.Div0.div_lt_upper_bound (snd q) 3 3).
  lia.
Qed.

Lemma related_sym p q : related p q -> related q p.
Proof. unfold related, same_block. lia. Qed.

Lemma value_at_cell b p c : Board.cell_at b p = Some c -> value_at b p = Cell.value c.
Proof. intros H. unfold value_at. by rewrite H. Qed.

Lemma value_at_outside b p : wf b -> ~ in_board p -> value_at b p = 0.
Proof.
  intros Hwf Hp. unfold value_at.
  destruct (Board.cell_at b p) as [c|] eqn:Hc; [|done].
  by destruct (cell_at_in_board b p c Hwf Hc).
Qed.

Lemma value_at_range b p : wf b -> 0 <= value_at b p <= 9.
Proof.
  intros Hwf. unfold value_at.
  destruct (Board.cell_at b p) as [c|] eqn:Hc; [|lia].
  by destruct (cell_at_in_board b p c Hwf Hc) as (_ & _ & _ & ?).
Qed.

Lemma consistent_iff b : wf b -> consistent b <-> consistent_refs b.
Proof.
  intros Hwf. split.
  - intros H p q Hp Hq Hne Hrel Hv.
    destruct (wf_cell_at b p Hwf Hp) as (c & Hc & _).
    destruct (wf_cell_at b q Hwf Hq) as (c' & Hc' & _).
    rewrite (value_at_cell _ _ _ Hc), (value_at_cell _ _ _ Hc') in *.
    apply (H p q); auto. by apply (same_group_related b p q).
  - intros H p q c c' Hne Hc Hc' Hg Hv.
    destruct (cell_at_in_board b p c Hwf Hc) as [Hp _].
    destruct (cell_at_in_board b q c' Hwf Hc') as [Hq _].
    rewrite <- (value_at_cell _ _ _ Hc), <- (value_at_cell _ _ _ Hc') in *.
    apply H; auto. by apply (same_group_related b p q c c').
Qed.

Lemma full_value_at b p : wf b -> full b -> in_board p -> value_at b p <> 0.
Proof.
  intros Hwf Hf Hp. destruct (wf_cell_at b p Hwf Hp) as (c & Hc & _).
  rewrite (value_at_cell _ _ _ Hc). by apply (Hf p).
Qed.

(** [is_valid] on an empty cell, in terms of the values around it. *)
Lemma is_valid_true b n p :
  wf b -> in_board p -> n <> 0 ->
  Board.is_valid b n p = Ok true ->
  forall q, in_board q -> related p q -> value_at b q <> n.
Proof.
  intros Hwf Hp Hn Hv q Hq Hrel.
  destruct (is_valid_spec b n p Hwf Hp) as (v & Hv' & Hiff).
  rewrite Hv in Hv'. injection Hv' as <-.
  intros Heq%holds_value_at; [|done].
  rewrite (proj1 Hiff eq_refl q Hq Hrel) in Heq. done.
Qed.

Lemma is_valid_false b n p :
  wf b -> in_board p -> n <> 0 ->
  Board.is_valid b n p = Ok false ->
  exists q, in_board q /\ related p q /\ value_at b q = n.
Proof.
  intros Hwf Hp Hn Hv.
  destruct (is_valid_spec b n p Hwf Hp) as (v & Hv' & Hiff).
  rewrite Hv in Hv'. injection Hv' as <-.
  destruct (decide (Exists (fun q => value_at b q = n /\ related p q)
                           all_refs)) as [Hex|Hnex].
  - apply Exists_exists in Hex as (q & Hq & Hval & Hrel). exists q.
    split; [|done]. unfold all_refs in Hq.
    apply list_elem_of_bind in Hq as (i & Hq & Hi).
    apply list_elem_of_fmap in Hq as (j & -> & Hj).
    apply elem_of_seq in Hi, Hj. split; simpl; lia.
  - enough (false = true) by done. apply Hiff. intros q Hq Hrel.
    destruct (Board.holds b n q) eqn:Hh; [|done]. exfalso. apply Hnex.
    apply Exists_exists. exists q. split.
    + unfold all_refs. apply list_elem_of_bind. exists (fst q).
      destruct Hq. split; [|apply elem_of_seq; lia].
      apply list_elem_of_fmap. exists (snd q).
      split; [by destruct q|apply elem_of_seq; lia].
    + split; [|done]. by apply holds_value_at.
Qed.

Lemma elem_of_all_refs p : p ∈ all_refs <-> in_board p.
Proof.
  unfold all_refs, in_board. rewrite list_elem_of_bind. split.
  - intros (i & Hq & Hi). apply list_elem_of_fmap in Hq as (j & -> & Hj).
    apply elem_of_seq in Hi, Hj. simpl. lia.
  - intros [H1 H2]. exists (fst p). split; [|apply elem_of_seq; lia].
    apply list_elem_of_fmap. exists (snd p).
    split; [by destruct p|apply elem_of_seq; lia].
Qed.

(** ** Invariants of the search *)

Lemma extends_refl b : extends b b.
Proof. by intros p. Qed.

Lemma extends_set_value b s p n c :
  Board.cell_at b p = Some c -> Cell.value c = 0 ->
  extends (Board.set_value b p n) s -> extends b s.
Proof.
  intros Hc Hv H q Hq.
  assert (p <> q) as Hne.
  { intros ->. by rewrite (value_at_cell _ _ _ Hc) in Hq. }
  rewrite <- (value_at_set_value_ne b p q n Hne) in *. by apply H.
Qed.

Lemma consistent_set_value b p n c :
  wf b -> Board.cell_at b p = Some c -> n <> 0 ->
  Board.is_valid b n p = Ok true ->
  consistent_refs b -> consistent_refs (Board.set_value b p n).
Proof.
  intros Hwf Hc Hn Hv Hcons q1 q2 H1 H2 Hne Hrel.
  destruct (cell_at_in_board b p c Hwf Hc) as [Hp _].
  destruct (decide (p = q1)) as [<-|Hp1].
  - rewrite (value_at_set_value_eq b p n c Hc).
    rewrite value_at_set_value_ne by done. intros _ Heq.
    by apply (is_valid_true b n p Hwf Hp Hn Hv q2 H2 Hrel).
  - rewrite (value_at_set_value_ne b p q1) by done.
    destruct (decide (p = q2)) as [<-|Hp2].
    + rewrite (value_at_set_value_eq b p n c Hc). intros _.
      apply (is_valid_true b n p Hwf Hp Hn Hv q1 H1). by apply related_sym.
    + rewrite (value_at_set_value_ne b p q2) by done. by apply Hcons.
Qed.

(** What every run preserves: the shape of the board and its clues; and
    what a successful run achieves. *)
Lemma Solve_Try_invariant :
  (forall b r b' tr, Solve b r b' tr -> wf b ->
     wf b' /\ extends b b' /\
     (r = true -> full b' /\ (consistent_refs b -> consistent_refs b'))) /\
  (forall cell ns b r b' tr, Try cell ns b r b' tr ->
     forall c, Board.cell_at b cell = Some c -> Cell.value c = 0 ->
     Forall (fun n => 1 <= n <= 9) ns -> wf b ->
     wf b' /\ extends b b' /\
     (r = true -> full b' /\ (consistent_refs b -> consistent_refs b'))).
Proof.
  apply Solve_Try_ind.
  - intros b He Hwf. split; [done|]. split; [apply extends_refl|].
    intros _. split; [|done]. exact (proj1 (get_empty_cell_None b) He).
  - intros b cell r b' tr He _ IH Hwf.
    apply get_empty_cell_Some in He as (c & Hc & Hv & _).
    apply (IH c); auto. unfold Board.candidates.
    repeat (constructor; [lia|]). constructor.
  - intros cell b c _ _ _ Hwf. split; [done|].
    split; [apply extends_refl|done].
  - intros cell n ns b r b' tr _ _ IH c Hc Hv Hns Hwf.
    apply (IH c); auto. by inversion Hns.
  - intros cell n ns b b' tr Hvalid _ IH c Hc Hv Hns Hwf.
    assert (1 <= n <= 9) as Hn by (by inversion Hns).
    destruct IH as (Hwf' & Hext & Hres); [apply wf_set_value; [done|lia]|].
    split; [done|]. split; [by eapply extends_set_value|].
    intros _. destruct (Hres eq_refl) as [Hfull Hcons]. split; [done|].
    intros Hb. apply Hcons. eapply consistent_set_value; eauto. lia.
  - intros cell n ns b b1 tr1 r b' tr Hvalid Hs _ _ IH c Hc Hv Hns Hwf.
    rewrite (Solve_revert _ _ _ Hs) in IH.
    rewrite (set_value_revert b cell n c Hc Hv) in IH.
    apply (IH c); auto. by inversion Hns.
Qed.

(** Writes go only to cells that were empty when the call started, and
    the values tried on the chosen cell follow the order of the loop. *)
Lemma placements_on_cons cell e tr :
  placements_on cell (e :: tr) =
  (if decide (fst e = cell /\ snd e <> 0) then [snd e] else []) ++
  placements_on cell tr.
Proof.
  unfold placements_on. rewrite filter_cons.
  destruct (decide (fst e = cell)) as [He|He].
  - rewrite fmap_cons, filter_cons. destruct (decide (snd e <> 0)).
    + by rewrite decide_True.
    + by rewrite decide_False by tauto.
  - by rewrite decide_False by tauto.
Qed.

Lemma placements_on_app cell tr1 tr2 :
  placements_on cell (tr1 ++ tr2) =
  placements_on cell tr1 ++ placements_on cell tr2.
Proof. unfold placements_on. by rewrite filter_app, fmap_app, filter_app. Qed.

Lemma placements_on_other cell tr :
  (forall e, e ∈ tr -> fst e <> cell) -> placements_on cell tr = [].
Proof.
  induction tr as [|e tr IH]; intros H; [done|].
  rewrite placements_on_cons, decide_False, IH; [done| |].
  - intros e' He'. apply H. by right.
  - intros [He _]. apply (H e); [by left|done].
Qed.

Lemma Solve_Try_trace :
  (forall b r b' tr, Solve b r b' tr ->
     forall e, e ∈ tr -> value_at b (fst e) = 0) /\
  (forall cell ns b r b' tr, Try cell ns b r b' tr ->
     forall c, Board.cell_at b cell = Some c -> Cell.value c = 0 ->
     Forall (fun n => n <> 0) ns ->
     (forall e, e ∈ tr -> value_at b (fst e) = 0) /\
     placements_on cell tr `sublist_of` ns).
Proof.
  apply Solve_Try_ind.
  - intros b _ e He. by apply elem_of_nil in He.
  - intros b cell r b' tr He _ IH.
    apply get_empty_cell_Some in He as (c & Hc & Hv & _).
    apply (IH c); auto. unfold Board.candidates.
    repeat (constructor; [lia|]). constructor.
  - intros cell b c _ _ _. split; [|done].
    intros e He. by apply elem_of_nil in He.
  - intros cell n ns b r b' tr _ _ IH c Hc Hv Hns.
    destruct (IH c) as [H1 H2]; auto; [by inversion Hns|].
    split; [done|]. by apply sublist_cons.
  - intros cell n ns b b' tr Hvalid _ IH c Hc Hv Hns.
    assert (n <> 0) as Hn by (by inversion Hns).
    assert (forall e, e ∈ tr -> fst e <> cell /\ value_at b (fst e) = 0) as Htr.
    { intros e He. specialize (IH e He).
      assert (fst e <> cell) as Hne.
      { intros Heq. rewrite Heq, (value_at_set_value_eq b cell n c Hc) in IH.
        done. }
      split; [done|]. by rewrite value_at_set_value_ne in IH. }
    split.
    + intros e [->|He]%elem_of_cons; [|by apply Htr].
      simpl. by rewrite (value_at_cell _ _ _ Hc).
    + rewrite placements_on_cons, decide_True by done.
      rewrite placements_on_other by (intros e He; by apply Htr).
      simpl. apply sublist_skip, sublist_nil_l.
  - intros cell n ns b b1 tr1 r b' tr Hvalid Hs IH1 _ IH2 c Hc Hv Hns.
    assert (n <> 0) as Hn by (by inversion Hns).
    assert (forall e, e ∈ tr1 -> fst e <> cell /\ value_at b (fst e) = 0)
      as Htr1.
    { intros e He. specialize (IH1 e He).
      assert (fst e <> cell) as Hne.
      { intros Heq. rewrite Heq, (value_at_set_value_eq b cell n c Hc) in IH1.
        done. }
      split; [done|]. by rewrite value_at_set_value_ne in IH1. }
    rewrite (Solve_revert _ _ _ Hs) in IH2.
    rewrite (set_value_revert b cell n c Hc Hv) in IH2.
    destruct (IH2 c) as [H1 H2]; auto; [by inversion Hns|]. split.
    + intros e [->|He]%elem_of_cons;
        [simpl; by rewrite (value_at_cell _ _ _ Hc)|].
      apply elem_of_app in He as [He|He]; [by apply Htr1|].
      apply elem_of_cons in He as [->|He]; [|by apply H1].
      simpl. by rewrite (value_at_cell _ _ _ Hc).
    + rewrite placements_on_cons, decide_True by done.
      rewrite placements_on_app, placements_on_cons.
      rewrite placements_on_other by (intros e He; by apply Htr1).
      rewrite decide_False by (simpl; tauto).
      simpl. by apply sublist_skip.
Qed.

Lemma elem_of_candidates v : 1 <= v <= 9 <-> v ∈ Board.candidates.
Proof. unfold Board.candidates. rewrite !elem_of_cons, elem_of_nil. lia. Qed.

Lemma candidates_range : Forall (fun n => 1 <= n <= 9) Board.candidates.
Proof. apply Forall_forall. intros v Hv. by apply elem_of_candidates. Qed.

Lemma completion_set_value b s p n c :
  Board.cell_at b p = Some c -> value_at s p = n ->
  completion b s -> completion (Board.set_value b p n) s.
Proof.
  intros Hc Hs (Hwf & Hfull & Hcons & Hext).
  split; [done|]. split; [done|]. split; [done|].
  intros q. destruct (decide (p = q)) as [<-|Hne].
  - by rewrite (value_at_set_value_eq b p n c Hc).
  - rewrite value_at_set_value_ne by done. apply Hext.
Qed.

(** The search is exhaustive: it cannot fail on a board that has a
    completion. *)
Lemma Solve_Try_complete :
  (forall b r b' tr, Solve b r b' tr -> wf b ->
     forall s, completion b s -> r = true) /\
  (forall cell ns b r b' tr, Try cell ns b r b' tr ->
     forall c, Board.cell_at b cell = Some c -> Cell.value c = 0 ->
     Forall (fun n => 1 <= n <= 9) ns -> wf b ->
     forall s, completion b s -> value_at s cell ∈ ns -> r = true).
Proof.
  apply Solve_Try_ind.
  - done.
  - intros b cell r b' tr He _ IH Hwf s Hs.
    apply get_empty_cell_Some in He as (c & Hc & Hv & _).
    apply (IH c Hc Hv candidates_range Hwf s Hs).
    apply elem_of_candidates.
    destruct (cell_at_in_board b cell c Hwf Hc) as [Hin _].
    destruct Hs as (Hwfs & Hfull & _).
    pose proof (value_at_range s cell Hwfs).
    pose proof (full_value_at s cell Hwfs Hfull Hin). lia.
  - intros cell b c _ _ _ _ s _ H. by apply elem_of_nil in H.
  - intros cell n ns b r b' tr Hvalid _ IH c Hc Hv Hns Hwf s Hs Hin.
    assert (Forall (fun n => 1 <= n <= 9) ns) as Hns' by (by inversion Hns).
    apply (IH c Hc Hv Hns' Hwf s Hs).
    apply elem_of_cons in Hin as [Heq|Hin]; [exfalso|done].
    assert (n <> 0) as Hn by (inversion Hns; lia).
    destruct (cell_at_in_board b cell c Hwf Hc) as [Hcell _].
    destruct (is_valid_false b n cell Hwf Hcell Hn Hvalid)
      as (q & Hq & Hrel & Hval).
    destruct Hs as (Hwfs & Hfull & Hcons & Hext).
    assert (cell <> q) as Hne.
    { intros ->. rewrite (value_at_cell _ _ _ Hc) in Hval. congruence. }
    apply (Hcons cell q Hcell Hq Hne Hrel); [congruence|].
    rewrite (Hext q) by congruence. congruence.
  - done.
  - intros cell n ns b b1 tr1 r b' tr Hvalid Hs IH1 _ IH2 c Hc Hv Hns Hwf
      s Hcompl Hin.
    assert (1 <= n <= 9) as Hn by (by inversion Hns).
    rewrite (Solve_revert _ _ _ Hs) in IH2.
    rewrite (set_value_revert b cell n c Hc Hv) in IH2.
    assert (Forall (fun n => 1 <= n <= 9) ns) as Hns' by (by inversion Hns).
    apply (IH2 c Hc Hv Hns' Hwf s Hcompl).
    apply elem_of_cons in Hin as [Heq|Hin]; [exfalso|done].
    enough (false = true) by done.
    apply IH1 with s; [apply wf_set_value; [done|lia]|].
    by apply (completion_set_value b s cell n c).
Qed.

(** ** Termination *)

Lemma try_nums_total (rec : Board.t -> Board.outcome) cell k :
  (forall b r b' tr, rec b = Board.Returned r b' tr -> Solve b r b' tr) ->
  (forall b, wf b -> (Board.count_empty b < k)%nat ->
             exists r b' tr, rec b = Board.Returned r b' tr) ->
  forall ns b c,
    wf b -> Board.cell_at b cell = Some c -> Cell.value c = 0 ->
    Forall (fun n => 1 <= n <= 9) ns -> (Board.count_empty b <= k)%nat ->
    exists r b' tr, Board.try_nums rec cell ns b = Board.Returned r b' tr.
Proof.
  intros Hsound Htotal. induction ns as [|n ns IH];
    intros b c Hwf Hc Hv Hns Hk; simpl; [by eauto|].
  assert (1 <= n <= 9) as Hn by (by inversion Hns).
  assert (Forall (fun n => 1 <= n <= 9) ns) as Hns' by (by inversion Hns).
  destruct (cell_at_in_board b cell c Hwf Hc) as [Hcell _].
  destruct (is_valid_spec b n cell Hwf Hcell) as ([|] & -> & _); [|by eauto].
  destruct (Htotal (Board.set_value b cell n)) as (r & b1 & tr1 & Hr).
  { apply wf_set_value; [done|lia]. }
  { pose proof (count_empty_set_value b cell n c Hc Hv). lia. }
  rewrite Hr. destruct r; [by eauto|].
  apply Hsound in Hr. rewrite (Solve_revert _ _ _ Hr).
  rewrite (set_value_revert b cell n c Hc Hv).
  destruct (IH b c) as (r2 & b2 & tr2 & ->); by eauto.
Qed.

Lemma solve_fuel_total fuel b :
  wf b -> (Board.count_empty b < fuel)%nat ->
  exists r b' tr, Board.solve_fuel fuel b = Board.Returned r b' tr.
Proof.
  revert b. induction fuel as [|fuel IH]; intros b Hwf Hlt; [lia|].
  rewrite solve_fuel_S.
  destruct (Board.get_empty_cell b) as [cell|] eqn:He; [|by eauto].
  apply get_empty_cell_Some in He as (c & Hc & Hv & _).
  apply (try_nums_total _ cell fuel) with c; auto.
  - apply solve_fuel_Solve.
  - apply candidates_range.
  - lia.
Qed.

(** On a constructed board [solve] returns, and what it returns is what
    the relation describes. *)
Lemma solve_total b :
  wf b -> exists r b' tr, Board.solve b = Board.Returned r b' tr.
Proof. intros Hwf. apply solve_fuel_total; [done|lia]. Qed.

Lemma solve_Solve b r b' tr :
  Board.solve b = Board.Returned r b' tr -> Solve b r b' tr.
Proof. apply solve_fuel_Solve. Qed.


(** ** Nine cells, nine digits *)

Lemma NoDup_candidates : NoDup Board.candidates.
Proof. by apply (bool_decide_unpack _). Qed.

Section group.
Variables (b : Board.t) (G : Cell.t -> Prop) (L : list cellref).
Hypothesis Hwf : wf b.
Hypothesis HG : forall p c, Board.cell_at b p = Some c -> G c <-> p ∈ L.
Hypothesis Hnd : NoDup L.
Hypothesis Hlen : length L = 9%nat.
Hypothesis Hrel : forall p q, p ∈ L -> q ∈ L -> related p q.
Hypothesis Hin : forall p, p ∈ L -> in_board p.

(** Nine pairwise distinct digits from 1-9 are all of them. *)
Lemma group_once :
  full b -> consistent_refs b ->
  forall d, 1 <= d <= 9 -> holds_once b G d.
Proof.
  intros Hfull Hcons d Hd.
  assert (NoDup (value_at b <$> L)) as Hvs.
  { apply NoDup_fmap_2_strong; [|done]. intros p q Hp Hq Heq.
    destruct (decide (p = q)) as [|Hne]; [done|]. exfalso.
    apply (Hcons p q); auto. by apply full_value_at; auto. }
  assert (value_at b <$> L ≡ₚ Board.candidates) as Hperm.
  { apply submseteq_length_Permutation.
    - apply NoDup_submseteq; [done|]. intros v Hv.
      apply list_elem_of_fmap in Hv as (p & -> & Hp).
      apply elem_of_candidates. pose proof (value_at_range b p Hwf).
      pose proof (full_value_at b p Hwf Hfull (Hin p Hp)). lia.
    - by rewrite length_fmap, Hlen. }
  assert (d ∈ value_at b <$> L) as Hdin.
  { rewrite Hperm. by apply elem_of_candidates. }
  apply list_elem_of_fmap in Hdin as (p & Hdp & Hp).
  destruct (wf_cell_at b p Hwf (Hin p Hp)) as (c & Hc & _).
  exists p, c. rewrite (value_at_cell b p c Hc) in Hdp.
  split; [done|]. split; [by apply (HG p c)|]. split; [done|].
  intros q c' Hc' Hg Hv. destruct (decide (q = p)) as [|Hne]; [done|].
  exfalso. apply (HG q c' Hc') in Hg.
  apply (Hcons q p); auto.
  - rewrite (value_at_cell b q c' Hc'). lia.
  - rewrite (value_at_cell b q c' Hc'), (value_at_cell b p c Hc). congruence.
Qed.

(** Conversely, nine cells that show every digit are nonzero and
    pairwise distinct. *)
Lemma group_distinct :
  (forall d, 1 <= d <= 9 -> holds_once b G d) ->
  forall p, p ∈ L ->
    value_at b p <> 0 /\
    forall q, q ∈ L -> p <> q -> value_at b p <> value_at b q.
Proof.
  intros Honce.
  assert (Board.candidates ≡ₚ value_at b <$> L) as Hperm.
  { apply submseteq_length_Permutation.
    - apply NoDup_submseteq; [apply NoDup_candidates|]. intros d Hd.
      apply elem_of_candidates in Hd.
      destruct (Honce d Hd) as (p & c & Hc & Hg & Hv & _).
      apply list_elem_of_fmap. exists p.
      rewrite (value_at_cell b p c Hc). split; [done|]. by apply (HG p c).
    - by rewrite length_fmap, Hlen. }
  assert (NoDup (value_at b <$> L)) as Hvs.
  { rewrite <- Hperm. apply NoDup_candidates. }
  intros p Hp. split.
  - assert (value_at b p ∈ Board.candidates) as Hv.
    { rewrite Hperm. apply list_elem_of_fmap. by exists p. }
    apply elem_of_candidates in Hv. lia.
  - intros q Hq Hne Heq. apply Hne.
    apply list_elem_of_lookup_1 in Hp as [i Hi], Hq as [j Hj].
    assert (i = j) as ->; [|congruence].
    apply (NoDup_lookup _ i j (value_at b p) Hvs).
    + by rewrite list_lookup_fmap, Hi.
    + by rewrite list_lookup_fmap, Hj, Heq.
Qed.
End group.

Lemma elem_of_row_refs k p : p ∈ row_refs k <-> fst p = k /\ (snd p < 9)%nat.
Proof.
  unfold row_refs. rewrite list_elem_of_fmap. split.
  - intros (j & -> & Hj). apply elem_of_seq in Hj. simpl. lia.
  - intros [<- H]. exists (snd p). split; [by destruct p|].
    apply elem_of_seq. lia.
Qed.

Lemma elem_of_col_refs k p : p ∈ col_refs k <-> snd p = k /\ (fst p < 9)%nat.
Proof.
  unfold col_refs. rewrite list_elem_of_fmap. split.
  - intros (j & -> & Hj). apply elem_of_seq in Hj. simpl. lia.
  - intros [<- H]. exists (fst p). split; [by destruct p|].
    apply elem_of_seq. lia.
Qed.

Lemma elem_of_blk_refs k p :
  (k < 9)%nat -> (snd p < 9)%nat ->
  p ∈ blk_refs k <-> (fst p / 3 * 3 + snd p / 3)%nat = k.
Proof.
  intros Hk Hp. unfold blk_refs. rewrite elem_of_block_refs.
  unfold same_block. cbn [fst snd].
  rewrite !(Nat.mul_comm 3), !Nat.div_mul by done.
  pose proof (Nat.div_mod_eq k 3). pose proof (Nat.mod_upper_bound k 3).
  pose proof (Nat.Div0.div_lt_upper_bound (snd p) 3 3). lia.
Qed.

Lemma NoDup_row_refs k : NoDup (row_refs k).
Proof.
  apply NoDup_fmap_2_strong; [|apply NoDup_seq]. by intros ?? _ _ [=].
Qed.

Lemma NoDup_col_refs k : NoDup (col_refs k).
Proof.
  apply NoDup_fmap_2_strong; [|apply NoDup_seq]. by intros ?? _ _ [=].
Qed.

Lemma NoDup_blk_refs k : (k < 9)%nat -> NoDup (blk_refs k).
Proof.
  intros Hk.
  do 9 (destruct k as [|k]; [by apply (bool_decide_unpack _)|]). lia.
Qed.

Lemma length_blk_refs k : length (blk_refs k) = 9%nat.
Proof.
  unfold blk_refs, block_refs. generalize (3 * (k / 3))%nat.
  generalize (3 * (k mod 3))%nat. intros a c. reflexivity.
Qed.

Lemma in_board_blk_refs k p : (k < 9)%nat -> p ∈ blk_refs k -> in_board p.
Proof.
  intros Hk Hp. unfold blk_refs in Hp. apply elem_of_block_refs in Hp.
  eapply same_block_in_board; [|done]. unfold in_board. cbn [fst snd].
  pose proof (Nat.div_mod_eq k 3). pose proof (Nat.mod_upper_bound k 3). lia.
Qed.

Lemma related_blk_refs k p q : p ∈ blk_refs k -> q ∈ blk_refs k -> related p q.
Proof.
  unfold blk_refs. rewrite !elem_of_block_refs. unfold related, same_block.
  lia.
Qed.

(** A full board without conflicts shows every digit once in every row,
    column and block. *)
Lemma solved_of_full_consistent b :
  wf b -> full b -> consistent_refs b -> solved b.
Proof.
  intros Hwf Hfull Hcons k d Hk Hd.
  assert (k = Z.of_nat (Z.to_nat k)) as Hkn by lia.
  assert (Z.to_nat k < 9)%nat as Hk9 by lia.
  revert Hkn Hk9. generalize (Z.to_nat k). intros n -> Hn. clear Hk.
  split; [|split].
  - apply (group_once b _ (row_refs n)); auto.
    + intros p c Hc. destruct (cell_at_in_board b p c Hwf Hc)
        as [[H1 H2] (_ & Hy & _)]. rewrite Hy, elem_of_row_refs. lia.
    + apply NoDup_row_refs.
    + intros p q [? _]%elem_of_row_refs [? _]%elem_of_row_refs.
      left. congruence.
    + intros p [? ?]%elem_of_row_refs. split; lia.
  - apply (group_once b _ (col_refs n)); auto.
    + intros p c Hc. destruct (cell_at_in_board b p c Hwf Hc)
        as [[H1 H2] (Hx & _ & _)]. rewrite Hx, elem_of_col_refs. lia.
    + apply NoDup_col_refs.
    + intros p q [? _]%elem_of_col_refs [? _]%elem_of_col_refs.
      right; left. congruence.
    + intros p [? ?]%elem_of_col_refs. split; lia.
  - apply (group_once b _ (blk_refs n)); auto.
    + intros p c Hc. destruct (cell_at_in_board b p c Hwf Hc)
        as [[H1 H2] Hok]. rewrite (block_index_nat _ _ _ Hok).
      rewrite elem_of_blk_refs by done. lia.
    + by apply NoDup_blk_refs.
    + apply related_blk_refs.
    + intros p. by apply in_board_blk_refs.
Qed.

(** Conversely a solved grid is full and has no conflicts. *)
Lemma solved_full_consistent b :
  wf b -> solved b -> full b /\ consistent_refs b.
Proof.
  intros Hwf Hsol.
  assert (forall n, (n < 9)%nat -> forall p, p ∈ row_refs n ->
            value_at b p <> 0 /\
            forall q, q ∈ row_refs n -> p <> q ->
                      value_at b p <> value_at b q) as Hrows.
  { intros n Hn.
    apply (group_distinct b (fun c => Cell.y c = Z.of_nat n)); auto.
    - intros p c Hc. destruct (cell_at_in_board b p c Hwf Hc)
        as [[H1 H2] (_ & Hy & _)]. rewrite Hy, elem_of_row_refs. lia.
    - intros d Hd. apply Hsol; [lia|done]. }
  assert (forall n, (n < 9)%nat -> forall p, p ∈ col_refs n ->
            value_at b p <> 0 /\
            forall q, q ∈ col_refs n -> p <> q ->
                      value_at b p <> value_at b q) as Hcols.
  { intros n Hn.
    apply (group_distinct b (fun c => Cell.x c = Z.of_nat n)); auto.
    - intros p c Hc. destruct (cell_at_in_board b p c Hwf Hc)
        as [[H1 H2] (Hx & _ & _)]. rewrite Hx, elem_of_col_refs. lia.
    - intros d Hd. apply Hsol; [lia|done]. }
  assert (forall n, (n < 9)%nat -> forall p, p ∈ blk_refs n ->
            value_at b p <> 0 /\
            forall q, q ∈ blk_refs n -> p <> q ->
                      value_at b p <> value_at b q) as Hblks.
  { intros n Hn.
    apply (group_distinct b (fun c => block_index c = Z.of_nat n)); auto.
    - intros p c Hc. destruct (cell_at_in_board b p c Hwf Hc)
        as [[H1 H2] Hok]. rewrite (block_index_nat _ _ _ Hok).
      rewrite elem_of_blk_refs by done. lia.
    - intros d Hd. apply Hsol; [lia|done]. }
  split.
  - intros p c Hc. destruct (cell_at_in_board b p c Hwf Hc) as [[H1 H2] _].
    rewrite <- (value_at_cell b p c Hc).
    apply (Hrows (fst p) H1 p). by apply elem_of_row_refs.
  - intros p q [Hp1 Hp2] [Hq1 Hq2] Hne [Hr|[Hr|[Hr1 Hr2]]] _.
    + apply (Hrows (fst p) Hp1 p); [|apply elem_of_row_refs|]; try done.
      by apply elem_of_row_refs.
    + apply (Hcols (snd p) Hp2 p); [|apply elem_of_col_refs|]; try done.
      by apply elem_of_col_refs.
    + pose proof (Nat.Div0.div_lt_upper_bound (fst p) 3 3).
      pose proof (Nat.Div0.div_lt_upper_bound (snd p) 3 3).
      apply (Hblks (fst p / 3 * 3 + snd p / 3)%nat); [lia| | |done].
      * apply elem_of_blk_refs; [lia|done|done].
      * apply elem_of_blk_refs; [lia|done|lia].
Qed.

Lemma solvable_completion b : solvable b -> exists s, completion b s.
Proof.
  intros (s & Hwf & Hsol & Hext). exists s.
  destruct (solved_full_consistent s Hwf Hsol). done.
Qed.

(** ** Construction *)

Lemma mapM_result_Ok {A B} (f : A -> result B) l k :
  mapM f l = Ok k ->
  length k = length l /\
  forall i a, l !! i = Some a -> exists b, k !! i = Some b /\ f a = Ok b.
Proof.
  revert k. induction l as [|a l IH]; intros k.
  - intros [= <-]. split; [done|]. intros i a. by rewrite lookup_nil.
  - rewrite mapM_result_cons. destruct (f a) as [y|] eqn:Hf; [|done].
    destruct (mapM f l) as [k'|]; [|done]. intros [= <-].
    destruct (IH k' eq_refl) as [Hlen Hall]. split; [simpl; lia|].
    intros [|i] a'; simpl; [intros [= <-]; eauto|apply Hall].
Qed.

Lemma mapM_result_Raise {A B} (f : A -> result B) l e :
  mapM f l = Raise e -> exists i a, l !! i = Some a /\ f a = Raise e.
Proof.
  induction l as [|a l IH]; [done|]. rewrite mapM_result_cons.
  destruct (f a) as [y|e'] eqn:Hf.
  - destruct (mapM f l) as [k'|e'] eqn:Hm; [done|]. intros [= ->].
    destruct (IH eq_refl) as (i & a' & ? & ?). by exists (S i), a'.
  - intros [= ->]. by exists 0%nat, a.
Qed.

Lemma lookup_enumerate_from {A} (l : list A) n i :
  enumerate_from n l !! i = (fun a => (n + Z.of_nat i, a)) <$> l !! i.
Proof.
  revert n i. induction l as [|a l IH]; intros n [|i]; simpl; try done.
  - by rewrite Z.add_0_r.
  - rewrite IH. destruct (l !! i); simpl; [|done]. do 2 f_equal. lia.
Qed.

Lemma length_enumerate_from {A} (l : list A) n :
  length (enumerate_from n l) = length l.
Proof. revert n. induction l; intros n; simpl; auto. Qed.

Lemma length_list_ascii (s : string) :
  length (list_ascii_of_string s) = String.length s.
Proof. induction s; simpl; auto. Qed.

Lemma Cell_int_char_range ch v :
  Cell.int (Cell.of_char ch) = Ok v -> 0 <= v <= 9.
Proof.
  simpl. destruct (Z.leb_spec 48 (Z.of_nat (nat_of_ascii ch))); [|done].
  destruct (Z.leb_spec (Z.of_nat (nat_of_ascii ch)) 57); [|done].
  simpl. intros [= <-]. lia.
Qed.

Lemma raise_unless_Ok c e u : raise_unless c e = Ok u -> c = true.
Proof. by destruct c. Qed.

Lemma raise_unless_Raise c e e' : raise_unless c e = Raise e' -> c = false /\ e' = e.
Proof. destruct c; [done|]. by intros [= ->]. Qed.

(** What a successful cell construction guarantees. *)
Lemma Cell_init_Ok x y a c :
  Cell.init x y a = Ok c ->
  Cell.x c = x /\ Cell.y c = y /\ Cell.int a = Ok (Cell.value c) /\
  0 <= x < 9 /\ 0 <= y < 9 /\ 0 <= Cell.value c <= 9.
Proof.
  unfold Cell.init. destruct (Cell.int a) as [v|]; [|done]. simpl.
  destruct (Cell.x_range x) eqn:Hx; [|done]. simpl.
  destruct (Cell.y_range y) eqn:Hy; [|done]. simpl.
  destruct (Cell.value_range v) eqn:Hv; [|done]. simpl. intros [= <-].
  apply raise_unless_Ok in Hx, Hy, Hv. simpl. repeat split; lia.
Qed.

(** Which exception a failed cell construction raises. *)
Lemma Cell_init_Raise x y a e :
  Cell.init x y a = Raise e ->
  (e = ValueError /\
   (Cell.int a = Raise ValueError \/
    exists v, Cell.int a = Ok v /\ ~ 0 <= v <= 9)) \/
  (e = NameError /\ ~ (0 <= x < 9 /\ 0 <= y < 9)).
Proof.
  unfold Cell.init. destruct (Cell.int a) as [v|e0] eqn:Ha.
  - simpl. destruct (Cell.x_range x) eqn:Hx; simpl.
    + destruct (Cell.y_range y) eqn:Hy; simpl.
      * destruct (Cell.value_range v) eqn:Hv; simpl; [done|].
        intros [= <-]. apply raise_unless_Raise in Hv as [Hv ->].
        left. split; [done|]. right. exists v. split; [done|]. lia.
      * intros [= <-]. apply raise_unless_Raise in Hy as [Hy ->].
        right. split; [done|]. lia.
    + intros [= <-]. apply raise_unless_Raise in Hx as [Hx ->].
      right. split; [done|]. lia.
  - simpl. intros [= <-]. left. destruct a as [z|ch]; [done|].
    simpl in Ha. destruct (_ && _) in Ha; [done|].
    injection Ha as <-. auto.
Qed.

Lemma Row_from_array_Ok y array r :
  Row.from_array y array = Ok r ->
  length array = 9%nat /\ Row.ix r = y /\ 0 <= y < 9 /\
  length (Row.cells r) = 9%nat /\
  forall j c, Row.cells r !! j = Some c ->
    Cell.x c = Z.of_nat j /\ Cell.y c = y /\ 0 <= Cell.value c <= 9.
Proof.
  unfold Row.from_array.
  destruct (mapM _ (enumerate array)) as [cells|] eqn:Hm; [|done]. simpl.
  unfold Row.init. destruct (Row.validate_ix y) eqn:Hix; [|done]. simpl.
  destruct (Row.validate_cells cells) eqn:Hcs; [|done]. simpl.
  intros [= <-]. simpl.
  apply raise_unless_Ok in Hix, Hcs. apply Nat.eqb_eq in Hcs.
  apply mapM_result_Ok in Hm as [Hlen Hall].
  unfold enumerate in *. rewrite length_enumerate_from in Hlen.
  split; [lia|]. split; [done|]. split; [lia|]. split; [done|].
  intros j c Hc.
  destruct (lookup_lt_is_Some_2 array j) as [ch Hch].
  { apply lookup_lt_Some in Hc. lia. }
  destruct (Hall j (Z.of_nat j, ch)) as (c' & Hc' & Hinit).
  { rewrite lookup_enumerate_from, Hch. done. }
  rewrite Hc in Hc'. injection Hc' as <-. simpl in Hinit.
  apply Cell_init_Ok in Hinit as (? & ? & ? & ? & ? & ?). done.
Qed.

Lemma Row_from_array_Raise y array e :
  Row.from_array y array = Raise e ->
  0 <= y < 9 -> (length array <= 9)%nat -> e = ValueError.
Proof.
  unfold Row.from_array. intros H Hy Hlen.
  destruct (mapM _ (enumerate array)) as [cells|e'] eqn:Hm; simpl in H.
  - unfold Row.init in H.
    destruct (Row.validate_ix y) eqn:Hix; simpl in H.
    + destruct (Row.validate_cells cells) eqn:Hcs; simpl in H; [done|].
      injection H as <-. by apply raise_unless_Raise in Hcs as [_ ->].
    + injection H as <-. by apply raise_unless_Raise in Hix as [_ ->].
  - injection H as <-.
    apply mapM_result_Raise in Hm as (j & [x ch] & Hj & Hinit).
    unfold enumerate in Hj. rewrite lookup_enumerate_from in Hj.
    destruct (array !! j) as [ch'|] eqn:Hch; [|done].
    injection Hj as <- <-. apply lookup_lt_Some in Hch.
    apply Cell_init_Raise in Hinit as [[-> _]|[_ Hrange]]; [done|].
    simpl in Hrange. lia.
Qed.

(** Every board the constructor returns is a 9x9 board whose cells carry
    their own coordinates, built from nine rows of nine characters. *)
Lemma from_array_of_strings_Ok array b :
  Board.from_array_of_strings array = Ok b ->
  wf b /\ length array = 9%nat /\
  forall row, row ∈ array -> String.length row = 9%nat.
Proof.
  unfold Board.from_array_of_strings.
  destruct (mapM _ (enumerate array)) as [rows|] eqn:Hm; [|done]. simpl.
  unfold Board.init. destruct (Board.validate_rows rows) eqn:Hr; [|done].
  simpl. intros [= <-]. apply raise_unless_Ok, Nat.eqb_eq in Hr.
  apply mapM_result_Ok in Hm as [Hlen Hall].
  unfold enumerate in *. rewrite length_enumerate_from in Hlen.
  split; [split; [done|]|split; [lia|]].
  - intros i r Hi. simpl in Hi.
    destruct (lookup_lt_is_Some_2 array i) as [row Hrow].
    { apply lookup_lt_Some in Hi. lia. }
    destruct (Hall i (Z.of_nat i, row)) as (r' & Hr' & Hfrom).
    { rewrite lookup_enumerate_from, Hrow. done. }
    rewrite Hi in Hr'. injection Hr' as <-. simpl in Hfrom.
    apply Row_from_array_Ok in Hfrom as (_ & ? & ? & ? & Hcells).
    split; [done|]. split; [done|]. intros j c Hc.
    destruct (Hcells j c Hc) as (? & ? & ?). done.
  - intros row [i Hi]%list_elem_of_lookup_1.
    destruct (Hall i (Z.of_nat i, row)) as (r' & Hr' & Hfrom).
    { rewrite lookup_enumerate_from, Hi. done. }
    simpl in Hfrom. apply Row_from_array_Ok in Hfrom as (Hl & _).
    by rewrite length_list_ascii in Hl.
Qed.

Lemma from_array_of_strings_wf array b :
  Board.from_array_of_strings array = Ok b -> wf b.
Proof. intros H. by apply from_array_of_strings_Ok in H as [? _]. Qed.

Lemma from_array_of_strings_Raise array e :
  Board.from_array_of_strings array = Raise e ->
  (length array <= 9)%nat ->
  (forall row, row ∈ array -> (String.length row <= 9)%nat) ->
  e = ValueError.
Proof.
  unfold Board.from_array_of_strings. intros H Hlen Hrows.
  destruct (mapM _ (enumerate array)) as [rows|e'] eqn:Hm; simpl in H.
  - unfold Board.init in H.
    destruct (Board.validate_rows rows) eqn:Hr; simpl in H; [done|].
    injection H as <-. by apply raise_unless_Raise in Hr as [_ ->].
  - injection H as <-.
    apply mapM_result_Raise in Hm as (i & [y row] & Hi & Hfrom).
    unfold enumerate in Hi. rewrite lookup_enumerate_from in Hi.
    destruct (array !! i) as [row'|] eqn:Hrow; [|done].
    injection Hi as <- <-. simpl in Hfrom.
    apply Row_from_array_Raise in Hfrom; [done| |].
    + apply lookup_lt_Some in Hrow. lia.
    + rewrite length_list_ascii. apply Hrows.
      by apply list_elem_of_lookup_2 with i.
Qed.

(** ** Executable checks *)

Lemma relatedb_spec p q : relatedb p q = true <-> related p q.
Proof.
  unfold relatedb, related, same_block.
  rewrite !orb_true_iff, andb_true_iff, !Nat.eqb_eq. tauto.
Qed.

Lemma cellref_eqb_spec p q : Board.cellref_eqb p q = true <-> p = q.
Proof.
  unfold Board.cellref_eqb. rewrite andb_true_iff, !Nat.eqb_eq.
  destruct p, q; simpl. split; [by intros [-> ->]|by intros [= -> ->]].
Qed.

Lemma forallb_elem_of {A} (f : A -> bool) l :
  forallb f l = true <-> forall a, a ∈ l -> f a = true.
Proof.
  rewrite forallb_forall. split; intros H a Ha; apply H;
    by apply list_elem_of_In.
Qed.

Lemma consistentb_sound b : consistentb b = true -> consistent_refs b.
Proof.
  unfold consistentb. rewrite forallb_elem_of.
  intros H p q Hp Hq Hne Hrel Hv Heq.
  apply elem_of_all_refs in Hp, Hq. specialize (H p Hp).
  rewrite forallb_elem_of in H. specialize (H q Hq).
  rewrite !orb_true_iff, !negb_true_iff in H.
  destruct H as [[[H|H]|H]|H].
  - by apply cellref_eqb_spec in H.
  - apply relatedb_spec in Hrel. congruence.
  - by apply Z.eqb_eq in H.
  - apply Z.eqb_neq in H. done.
Qed.

Lemma extendsb_sound b s : wf b -> extendsb b s = true -> extends b s.
Proof.
  unfold extendsb. rewrite forallb_elem_of. intros Hwf H p Hv.
  destruct (decide (in_board p)) as [Hp|Hp].
  - apply elem_of_all_refs in Hp. specialize (H p Hp).
    rewrite orb_true_iff, !Z.eqb_eq in H. by destruct H.
  - by rewrite (value_at_outside b p Hwf Hp) in Hv.
Qed.

(** ** The trace records the mutations *)

Lemma replay_app b tr1 tr2 : replay b (tr1 ++ tr2) = replay (replay b tr1) tr2.
Proof. apply foldl_app. Qed.

Lemma Solve_Try_replay :
  (forall b r b' tr, Solve b r b' tr -> replay b tr = b') /\
  (forall cell ns b r b' tr, Try cell ns b r b' tr -> replay b tr = b').
Proof.
  apply Solve_Try_ind; try done.
  intros cell n ns b b1 tr1 r b' tr _ _ IH1 _ IH2.
  change ((cell, n) :: tr1 ++ (cell, 0) :: tr)
    with ([(cell, n)] ++ tr1 ++ [(cell, 0)] ++ tr).
  rewrite !replay_app. simpl. by rewrite IH1.
Qed.

(** ** Boards with the same digits *)

Lemma wf_digits_eq b1 b2 :
  wf b1 -> wf b2 -> digits_of b1 = digits_of b2 -> b1 = b2.
Proof.
  intros [Hl1 Hr1] [Hl2 Hr2] Hd. destruct b1 as [rs1], b2 as [rs2].
  simpl in *. f_equal. apply list_eq. intros i.
  assert (digits_of (Board.mk rs1) !! i = digits_of (Board.mk rs2) !! i)
    as Hi by (by rewrite Hd).
  unfold digits_of in Hi. simpl in Hi. rewrite !list_lookup_fmap in Hi.
  destruct (rs1 !! i) as [r1|] eqn:E1, (rs2 !! i) as [r2|] eqn:E2;
    simpl in Hi; try done.
  injection Hi as Hi. f_equal.
  destruct (Hr1 i r1 E1) as (Hix1 & Hlen1 & Hc1).
  destruct (Hr2 i r2 E2) as (Hix2 & Hlen2 & Hc2).
  destruct r1 as [ix1 cs1], r2 as [ix2 cs2]. simpl in *.
  f_equal; [congruence|]. apply list_eq. intros j.
  assert ((Cell.value <$> cs1) !! j = (Cell.value <$> cs2) !! j)
    as Hj by (by rewrite Hi).
  rewrite !list_lookup_fmap in Hj.
  destruct (cs1 !! j) as [c1|] eqn:F1, (cs2 !! j) as [c2|] eqn:F2;
    simpl in Hj; try done.
  injection Hj as Hj. f_equal.
  destruct (Hc1 j c1 F1) as (? & ? & _), (Hc2 j c2 F2) as (? & ? & _).
  destruct c1, c2. simpl in *. congruence.
Qed.

(** ** The concrete boards *)

Lemma classic_board_built :
  Board.from_array_of_strings classic_rows = Ok classic_board.
Proof. reflexivity. Qed.

Lemma classic_board_wf : wf classic_board.
Proof. apply (from_array_of_strings_wf classic_rows). reflexivity. Qed.

Lemma classic_solved_wf : wf classic_solved.
Proof. apply (from_array_of_strings_wf classic_solution). reflexivity. Qed.

Lemma classic_solved_full : full classic_solved.
Proof. apply full_iff. reflexivity. Qed.

Lemma classic_solved_consistent : consistent classic_solved.
Proof.
  apply consistent_iff; [apply classic_solved_wf|].
  apply consistentb_sound. vm_compute. reflexivity.
Qed.

Lemma classic_board_solvable : solvable classic_board.
Proof.
  exists classic_solved. split; [apply classic_solved_wf|]. split.
  - apply solved_of_full_consistent.
    + apply classic_solved_wf.
    + apply classic_solved_full.
    + apply consistent_iff; [apply classic_solved_wf|].
      apply classic_solved_consistent.
  - apply extendsb_sound; [apply classic_board_wf|]. vm_compute. reflexivity.
Qed.

Lemma classic_board_solve :
  Board.solve classic_board = Board.Returned true classic_solved classic_trace.
Proof. vm_compute. reflexivity. Qed.

Lemma conflict_board_wf : wf conflict_board.
Proof. apply (from_array_of_strings_wf conflict_rows). reflexivity. Qed.

Lemma lone_board_wf : wf lone_board.
Proof. apply (from_array_of_strings_wf lone_rows). reflexivity. Qed.

(** The forced conflict is found after one trial placement, which is
    undone. *)
Example conflict_board_fails :
  Board.solve conflict_board =
  Board.Returned false conflict_board [((0, 7)%nat, 9); ((0, 7)%nat, 0)].
Proof. vm_compute. reflexivity. Qed.

(** ** Order of the candidates *)


Lemma candidates_sorted : StronglySorted Z.lt Board.candidates.
Proof.
  unfold Board.candidates.
  repeat (constructor; [|repeat (constructor; [lia|]); constructor]).
  constructor.
Qed.

Lemma row_major_trichotomy p q :
  row_major_lt p q \/ p = q \/ row_major_lt q p.
Proof.
  destruct p as [i j], q as [i' j']. unfold row_major_lt. simpl.
  destruct (decide (i = i')) as [->|]; [|lia].
  destruct (decide (j = j')) as [->|]; [|lia]. auto.
Qed.

Lemma completion_consistent b s :
  completion b s -> consistent_refs b.
Proof.
  intros (Hwfs & Hfull & Hcons & Hext) p q Hp Hq Hne Hrel Hv Heq.
  apply (Hcons p q Hp Hq Hne Hrel).
  - rewrite (Hext p Hv). done.
  - rewrite (Hext p Hv), (Hext q) by congruence. done.
Qed.

(** Without a completion the flag alone says little: a grid without empty
    cells is accepted as it is, whatever its digits. *)
Example fives_board_accepted :
  wf fives_board /\
  Board.solve fives_board = Board.Returned true fives_board [] /\
  ~ solved fives_board.
Proof.
  assert (wf fives_board) as Hwf.
  { apply (from_array_of_strings_wf fives_rows). reflexivity. }
  split; [done|]. split; [reflexivity|]. intros Hs.
  destruct (solved_full_consistent _ Hwf Hs) as [_ Hc].
  apply (Hc (0, 0)%nat (0, 1)%nat); try (split; simpl; lia);
    try done; by left.
Qed.

(** * The claims *)

(** C1. For every solvable 9x9 board [solve] returns True, and after it
    has returned True every row, every column and every 3x3 block (the
    block of a cell being [(y / 3) * 3 + (x / 3)]) contains each digit 1-9
    exactly once. *)
Theorem solve_gives_solved_grid b :
  wf b -> solvable b ->
  (exists b' tr, Board.solve b = Board.Returned true b' tr) /\
  (forall b' tr, Board.solve b = Board.Returned true b' tr -> solved b').
Proof.
  intros Hwf Hsol. destruct (solvable_completion b Hsol) as [s Hs].
  split.
  - destruct (solve_total b Hwf) as (r & b' & tr & H). exists b', tr.
    rewrite H. f_equal.
    apply (proj1 Solve_Try_complete b r b' tr (solve_Solve _ _ _ _ H) Hwf s Hs).
  - intros b' tr H. apply solve_Solve in H.
    destruct (proj1 Solve_Try_invariant _ _ _ _ H Hwf) as (Hwf' & _ & Hres).
    destruct (Hres eq_refl) as [Hfull Hcons].
    apply solved_of_full_consistent; auto.
    apply Hcons. by apply (completion_consistent b s).
Qed.

Lemma solve_gives_solved_grid_witness :
  wf classic_board /\ solvable classic_board /\
  (exists b' tr, Board.solve classic_board = Board.Returned true b' tr) /\
  (forall b' tr, Board.solve classic_board = Board.Returned true b' tr ->
                 solved b').
Proof.
  split; [apply classic_board_wf|]. split; [apply classic_board_solvable|].
  apply (solve_gives_solved_grid classic_board).
  - apply classic_board_wf.
  - apply classic_board_solvable.
Defined.

(** C2, as the code has it.  On a constructed board [is_valid] returns,
    and returns True exactly when no cell of the queried cell's row, column
    or block, the queried cell itself included, holds the candidate.  When
    the queried cell does not hold the candidate (it is empty in every call
    [solve] makes) this is the scan over the other cells. *)
Theorem is_valid_scan b p n :
  wf b -> in_board p ->
  exists v, Board.is_valid b n p = Ok v /\
    (v = true <-> no_cell_holds b p n) /\
    (value_at b p <> n -> (v = true <-> no_other_holds b p n)).
Proof.
  intros Hwf Hp. destruct (is_valid_spec b n p Hwf Hp) as (v & Hv & Hiff).
  exists v. split; [done|].
  destruct (wf_cell_at b p Hwf Hp) as (c & Hc & _).
  assert (v = true <-> no_cell_holds b p n) as Hall.
  { rewrite Hiff. split.
    - intros H c0 q c' Hc0 Hc' Hg.
      destruct (cell_at_in_board b q c' Hwf Hc') as [Hq _].
      apply (same_group_related b p q c0 c' Hwf Hc0 Hc') in Hg.
      specialize (H q Hq Hg). unfold Board.holds in H. rewrite Hc' in H.
      by apply Z.eqb_neq.
    - intros H q Hq Hrel.
      destruct (wf_cell_at b q Hwf Hq) as (c' & Hc' & _).
      unfold Board.holds. rewrite Hc'. apply Z.eqb_neq.
      apply (H c q c' Hc Hc').
      by apply (same_group_related b p q c c' Hwf Hc Hc'). }
  split; [done|]. intros Hown. rewrite Hall. split.
  - intros H c0 q c' Hc0 Hc' _. by apply (H c0 q c').
  - intros H c0 q c' Hc0 Hc' Hg. destruct (decide (q = p)) as [->|Hne].
    + rewrite (value_at_cell b p c' Hc') in Hown. done.
    + by apply (H c0 q c').
Qed.

Lemma is_valid_scan_witness :
  wf lone_board /\ in_board (0, 1)%nat /\
  exists v, Board.is_valid lone_board 5 (0, 1)%nat = Ok v /\
    (v = true <-> no_cell_holds lone_board (0, 1)%nat 5) /\
    (value_at lone_board (0, 1)%nat <> 5 ->
     (v = true <-> no_other_holds lone_board (0, 1)%nat 5)).
Proof.
  split; [apply lone_board_wf|]. split; [split; simpl; lia|].
  apply (is_valid_scan lone_board (0, 1)%nat 5).
  - apply lone_board_wf.
  - split; simpl; lia.
Defined.

(** C2, as stated, fails when the queried cell itself holds the candidate:
    on the grid whose only clue is the 5 in the first cell, no other cell
    holds 5, yet [is_valid] rejects 5 for that cell. *)
Lemma is_valid_rejects_own_value :
  ~ (Board.is_valid lone_board 5 (0, 0)%nat = Ok true <->
     no_other_holds lone_board (0, 0)%nat 5).
Proof.
  intros [_ H].
  assert (no_other_holds lone_board (0, 0)%nat 5) as Hno.
  { intros c q c' _ Hc' Hne _.
    destruct (cell_at_in_board lone_board q c' lone_board_wf Hc') as [Hq _].
    apply elem_of_all_refs in Hq.
    assert (forallb (fun q => Board.cellref_eqb q (0, 0)%nat ||
                              negb (value_at lone_board q =? 5))
                    all_refs = true) as Hall by (vm_compute; reflexivity).
    rewrite forallb_elem_of in Hall. specialize (Hall q Hq).
    rewrite orb_true_iff, negb_true_iff in Hall. destruct Hall as [Heq|Hv].
    - by apply cellref_eqb_spec in Heq.
    - apply Z.eqb_neq in Hv. by rewrite (value_at_cell _ _ _ Hc') in Hv. }
  specialize (H Hno). vm_compute in H. discriminate H.
Qed.

(** C3, as the code has it.  Construction from a grid whose row count is
    not 9, or that has a row whose length is not 9, raises and builds no
    board; when the grid has at most nine rows of at most nine characters
    the exception is ValueError. *)
Theorem from_array_of_strings_rejects_shape array :
  length array <> 9%nat \/
  (exists row, row ∈ array /\ String.length row <> 9%nat) ->
  exists e, Board.from_array_of_strings array = Raise e /\
    ((length array <= 9)%nat ->
     (forall row, row ∈ array -> (String.length row <= 9)%nat) ->
     e = ValueError).
Proof.
  intros Hbad. destruct (Board.from_array_of_strings array) as [b|e] eqn:H.
  - exfalso. apply from_array_of_strings_Ok in H as (_ & Hlen & Hrows).
    destruct Hbad as [Hbad|(row & Hin & Hbad)]; [done|].
    by apply Hbad, Hrows.
  - exists e. split; [done|]. intros Hlen Hrows.
    by apply (from_array_of_strings_Raise array).
Qed.

Lemma from_array_of_strings_rejects_shape_witness :
  (length short_rows <> 9%nat \/
   (exists row, row ∈ short_rows /\ String.length row <> 9%nat)) /\
  exists e, Board.from_array_of_strings short_rows = Raise e /\
    ((length short_rows <= 9)%nat ->
     (forall row, row ∈ short_rows -> (String.length row <= 9)%nat) ->
     e = ValueError).
Proof.
  assert (exists row, row ∈ short_rows /\ String.length row <> 9%nat) as H.
  { exists "00302060"%string. split; [by left|]. simpl. lia. }
  split; [by right|].
  apply (from_array_of_strings_rejects_shape short_rows). by right.
Defined.

(** C3, as stated, fails: a grid whose first row has eight characters is
    rejected with ValueError, not with ShapeError. *)
Lemma short_row_raises_ValueError :
  (exists row, row ∈ short_rows /\ String.length row <> 9%nat) /\
  Board.from_array_of_strings short_rows = Raise ValueError /\
  Board.from_array_of_strings short_rows <> Raise ShapeError.
Proof.
  split; [|split].
  - exists "00302060"%string. split; [by left|]. simpl. lia.
  - reflexivity.
  - discriminate.
Qed.

(** C4 at the inputs where the code departs from it: a cell whose [x] or
    [y] is out of range raises NameError, not ValueError (the message of
    the range check names an undefined variable); the same happens for the
    tenth character of an overlong row.  A value out of range does raise
    ValueError. *)
Theorem Cell_coordinate_out_of_range_raises_NameError :
  Cell.init 9 0 (Cell.of_int 0) = Raise NameError /\
  Cell.init 0 (-1) (Cell.of_int 0) = Raise NameError /\
  Row.from_array 0 (list_ascii_of_string "0030206001") = Raise NameError /\
  Cell.init 0 0 (Cell.of_int 10) = Raise ValueError.
Proof. repeat split; reflexivity. Qed.

(** C5. On a constructed board [solve] returns (no exception escapes), and
    when it returns False the board is exactly the board before the call:
    every trial write has been undone, as replaying the writes shows. *)
Theorem solve_failure_restores_board b :
  wf b ->
  (exists r b' tr, Board.solve b = Board.Returned r b' tr) /\
  (forall b' tr, Board.solve b = Board.Returned false b' tr ->
     b' = b /\ replay b tr = b).
Proof.
  intros Hwf. split; [by apply solve_total|]. intros b' tr H.
  apply solve_Solve in H. pose proof (Solve_revert _ _ _ H) as ->.
  split; [done|]. by apply (proj1 Solve_Try_replay b false b tr).
Qed.

Lemma solve_failure_restores_board_witness :
  wf conflict_board /\
  (exists r b' tr, Board.solve conflict_board = Board.Returned r b' tr) /\
  (forall b' tr, Board.solve conflict_board = Board.Returned false b' tr ->
     b' = conflict_board /\ replay conflict_board tr = conflict_board).
Proof.
  split; [apply conflict_board_wf|].
  apply (solve_failure_restores_board conflict_board), conflict_board_wf.
Defined.

(** C6. On a board without empty cells that satisfies the uniqueness
    constraints [solve] returns True at once: the board is unchanged and no
    write is made. *)
Theorem solve_full_board_unchanged b :
  full b -> consistent b -> Board.solve b = Board.Returned true b [].
Proof.
  intros Hfull _. apply full_iff in Hfull. unfold Board.solve.
  by rewrite solve_fuel_S, Hfull.
Qed.

Lemma solve_full_board_unchanged_witness :
  full classic_solved /\ consistent classic_solved /\
  Board.solve classic_solved = Board.Returned true classic_solved [].
Proof.
  split; [apply classic_solved_full|].
  split; [apply classic_solved_consistent|].
  apply (solve_full_board_unchanged classic_solved).
  - apply classic_solved_full.
  - apply classic_solved_consistent.
Defined.





(** C9. On the classic puzzle construction succeeds, [solve] returns True,
    and the first three cells of the first row then hold 4, 8, 3. *)
Theorem classic_puzzle_solved :
  exists b b' tr row,
    Board.from_array_of_strings classic_rows = Ok b /\
    Board.solve b = Board.Returned true b' tr /\
    Board.rows b' !! 0%nat = Some row /\
    Cell.value <$> take 3 (Row.cells row) = [4; 8; 3].
Proof.
  exists classic_board, classic_solved, classic_trace.
  eexists. split; [reflexivity|]. split; [apply classic_board_solve|].
  split; reflexivity.
Qed.

(** C10. When [solve] returns True on a constructed board, every cell that
    held a nonzero value before the call is the same afterwards, and every
    write of the call went to a cell that was empty before it. *)
Theorem solve_keeps_clues b b' tr :
  wf b -> Board.solve b = Board.Returned true b' tr ->
  (forall p c, Board.cell_at b p = Some c -> Cell.value c <> 0 ->
               Board.cell_at b' p = Some c) /\
  (forall e, e ∈ tr -> value_at b (fst e) = 0).
Proof.
  intros Hwf H. apply solve_Solve in H.
  destruct (proj1 Solve_Try_invariant _ _ _ _ H Hwf) as (Hwf' & Hext & _).
  split; [|apply (proj1 Solve_Try_trace _ _ _ _ H)].
  intros p c Hc Hv. destruct (cell_at_in_board b p c Hwf Hc) as [Hp Hok].
  destruct (wf_cell_at b' p Hwf' Hp) as (c' & Hc' & Hok').
  rewrite Hc'. f_equal. specialize (Hext p).
  rewrite (value_at_cell b p c Hc), (value_at_cell b' p c' Hc') in Hext.
  destruct Hok as (? & ? & _), Hok' as (? & ? & _).
  destruct c, c'. simpl in *. f_equal; try congruence. by apply Hext.
Qed.

Lemma solve_keeps_clues_witness :
  wf classic_board /\
  Board.solve classic_board =
    Board.Returned true classic_solved classic_trace /\
  (forall p c, Board.cell_at classic_board p = Some c -> Cell.value c <> 0 ->
               Board.cell_at classic_solved p = Some c) /\
  (forall e, e ∈ classic_trace -> value_at classic_board (fst e) = 0).
Proof.
  split; [apply classic_board_wf|]. split; [apply classic_board_solve|].
  apply (solve_keeps_clues classic_board classic_solved classic_trace).
  - apply classic_board_wf.
  - apply classic_board_solve.
Defined.

(** * Further properties of the solver *)

Lemma get_empty_cell_before b cell :
  wf b -> Board.get_empty_cell b = Some cell ->
  forall q, in_board q -> row_major_lt q cell -> value_at b q <> 0.
Proof.
  intros Hwf He q Hq Hlt.
  apply get_empty_cell_Some in He as (_ & _ & _ & Hbefore).
  destruct (wf_cell_at b q Hwf Hq) as (c' & Hc' & _).
  rewrite (value_at_cell b q c' Hc'). by apply (Hbefore q c').
Qed.

Lemma completion_value_in_candidates b s cell c :
  wf b -> Board.cell_at b cell = Some c -> completion b s ->
  value_at s cell ∈ Board.candidates.
Proof.
  intros Hwf Hc (Hwfs & Hfull & _). apply elem_of_candidates.
  destruct (cell_at_in_board b cell c Hwf Hc) as [Hin _].
  pose proof (value_at_range s cell Hwfs).
  pose proof (full_value_at s cell Hwfs Hfull Hin). lia.
Qed.

(** A completion cannot hold a digit that [is_valid] rejects. *)
Lemma completion_not_rejected b s cell c n :
  wf b -> Board.cell_at b cell = Some c -> Cell.value c = 0 -> n <> 0 ->
  Board.is_valid b n cell = Ok false -> completion b s ->
  value_at s cell <> n.
Proof.
  intros Hwf Hc Hv Hn Hvalid (Hwfs & Hfull & Hcons & Hext) Heq.
  destruct (cell_at_in_board b cell c Hwf Hc) as [Hcell _].
  destruct (is_valid_false b n cell Hwf Hcell Hn Hvalid)
    as (q & Hq & Hrel & Hval).
  assert (cell <> q) as Hne.
  { intros ->. rewrite (value_at_cell _ _ _ Hc) in Hval. congruence. }
  apply (Hcons cell q Hcell Hq Hne Hrel); [congruence|].
  rewrite (Hext q) by congruence. congruence.
Qed.

(** The grid found is the least completion in row-major order. *)
Lemma Solve_Try_least :
  (forall b r b' tr, Solve b r b' tr -> wf b -> r = true ->
     forall s, completion b s -> lex_le b' s) /\
  (forall cell ns b r b' tr, Try cell ns b r b' tr ->
     forall c, Board.cell_at b cell = Some c -> Cell.value c = 0 ->
     Forall (fun n => 1 <= n <= 9) ns -> StronglySorted Z.lt ns ->
     (forall q, in_board q -> row_major_lt q cell -> value_at b q <> 0) ->
     wf b -> r = true ->
     forall s, completion b s -> value_at s cell ∈ ns -> lex_le b' s).
Proof.
  apply Solve_Try_ind.
  - intros b He Hwf _ s (Hwfs & _ & _ & Hext). left. intros p Hp.
    symmetry. apply Hext. apply full_value_at; auto. by apply full_iff.
  - intros b cell r b' tr He _ IH Hwf Hr s Hs.
    pose proof (get_empty_cell_before b cell Hwf He) as Hbefore.
    apply get_empty_cell_Some in He as (c & Hc & Hv & _).
    apply (IH c Hc Hv candidates_range candidates_sorted Hbefore Hwf Hr s Hs).
    by apply (completion_value_in_candidates b s cell c).
  - done.
  - intros cell n ns b r b' tr Hvalid _ IH c Hc Hv Hns Hsort Hbefore Hwf Hr
      s Hs Hin.
    assert (Forall (fun n => 1 <= n <= 9) ns) as Hns' by (by inversion Hns).
    assert (StronglySorted Z.lt ns) as Hsort' by (by inversion Hsort).
    apply (IH c Hc Hv Hns' Hsort' Hbefore Hwf Hr s Hs).
    apply elem_of_cons in Hin as [Heq|Hin]; [exfalso|done].
    assert (n <> 0) as Hn by (inversion Hns; lia).
    by apply (completion_not_rejected b s cell c n).
  - intros cell n ns b b' tr Hvalid Hsolve IH c Hc Hv Hns Hsort Hbefore Hwf _
      s Hs Hin.
    assert (1 <= n <= 9) as Hn by (by inversion Hns).
    assert (wf (Board.set_value b cell n)) as Hwf1
      by (apply wf_set_value; [done|lia]).
    apply elem_of_cons in Hin as [Heq|Hin].
    + apply (IH Hwf1 eq_refl s).
      by apply (completion_set_value b s cell n c).
    + destruct (proj1 Solve_Try_invariant _ _ _ _ Hsolve Hwf1)
        as (Hwf' & Hext' & _).
      destruct (cell_at_in_board b cell c Hwf Hc) as [Hcell _].
      right. exists cell. split; [done|]. split.
      * rewrite (Hext' cell);
          rewrite (value_at_set_value_eq b cell n c Hc); [|lia].
        inversion Hsort as [|? ? _ Hall]; subst.
        rewrite List.Forall_forall in Hall. apply Hall.
        by apply list_elem_of_In.
      * intros q Hq Hlt. pose proof (Hbefore q Hq Hlt) as Hqv.
        assert (cell <> q) as Hne.
        { intros ->. by rewrite (value_at_cell _ _ _ Hc) in Hqv. }
        destruct Hs as (_ & _ & _ & Hext). rewrite (Hext q Hqv).
        rewrite (Hext' q); rewrite value_at_set_value_ne by done; done.
  - intros cell n ns b b1 tr1 r b' tr Hvalid Hsolve _ _ IH2 c Hc Hv Hns Hsort
      Hbefore Hwf Hr s Hs Hin.
    assert (1 <= n <= 9) as Hn by (by inversion Hns).
    assert (Forall (fun n => 1 <= n <= 9) ns) as Hns' by (by inversion Hns).
    assert (StronglySorted Z.lt ns) as Hsort' by (by inversion Hsort).
    rewrite (Solve_revert _ _ _ Hsolve) in IH2.
    rewrite (set_value_revert b cell n c Hc Hv) in IH2.
    apply (IH2 c Hc Hv Hns' Hsort' Hbefore Hwf Hr s Hs).
    apply elem_of_cons in Hin as [Heq|Hin]; [exfalso|done].
    enough (false = true) by done.
    apply (proj1 Solve_Try_complete _ _ _ _ Hsolve) with s;
      [apply wf_set_value; [done|lia]|].
    by apply (completion_set_value b s cell n c).
Qed.


Lemma classic_board_consistent : consistent classic_board.
Proof.
  apply consistent_iff; [apply classic_board_wf|].
  apply consistentb_sound. vm_compute. reflexivity.
Qed.

Lemma classic_solved_solved : solved classic_solved.
Proof.
  apply solved_of_full_consistent.
  - apply classic_solved_wf.
  - apply classic_solved_full.
  - apply consistent_iff; [apply classic_solved_wf|].
    apply classic_solved_consistent.
Qed.

Lemma classic_solved_extends : extends classic_board classic_solved.
Proof. apply extendsb_sound; [apply classic_board_wf|]. vm_compute. reflexivity. Qed.


(** X1. When [solve] returns True, the grid it leaves comes first, in
    row-major lexicographic order, among all solved grids that keep the
    clues: at the first cell where another solution differs, [solve] has
    the smaller digit. *)
Theorem solve_finds_least_solution b b' tr s :
  wf b -> Board.solve b = Board.Returned true b' tr ->
  wf s -> solved s -> extends b s ->
  lex_le b' s.
Proof.
  intros Hwf H Hwfs Hsol Hext. apply solve_Solve in H.
  apply (proj1 Solve_Try_least _ _ _ _ H Hwf eq_refl s).
  destruct (solved_full_consistent s Hwfs Hsol). done.
Qed.

Lemma solve_finds_least_solution_witness :
  wf classic_board /\
  Board.solve classic_board =
    Board.Returned true classic_solved classic_trace /\
  wf classic_solved /\ solved classic_solved /\
  extends classic_board classic_solved /\
  lex_le classic_solved classic_solved.
Proof.
  split; [apply classic_board_wf|]. split; [apply classic_board_solve|].
  split; [apply classic_solved_wf|]. split; [apply classic_solved_solved|].
  split; [apply classic_solved_extends|].
  apply (solve_finds_least_solution classic_board classic_solved
           classic_trace classic_solved).
  - apply classic_board_wf.
  - apply classic_board_solve.
  - apply classic_solved_wf.
  - apply classic_solved_solved.
  - apply classic_solved_extends.
Defined.

(** X2. On a board whose clues satisfy the uniqueness constraints the flag
    of [solve] decides solvability: it is True exactly when some solved
    grid keeps the clues. *)
Theorem solve_flag_decides_solvability b :
  wf b -> consistent b ->
  exists r b' tr, Board.solve b = Board.Returned r b' tr /\
    (r = true <-> solvable b).
Proof.
  intros Hwf Hcons. destruct (solve_total b Hwf) as (r & b' & tr & H).
  exists r, b', tr. split; [done|]. apply solve_Solve in H. split.
  - intros ->.
    destruct (proj1 Solve_Try_invariant _ _ _ _ H Hwf)
      as (Hwf' & Hext & Hres).
    destruct (Hres eq_refl) as [Hfull Hc'].
    exists b'. split; [done|]. split; [|done].
    apply solved_of_full_consistent; auto.
    apply Hc'. by apply consistent_iff.
  - intros Hsol. destruct (solvable_completion b Hsol) as [s Hs].
    by apply (proj1 Solve_Try_complete _ _ _ _ H Hwf s).
Qed.

Lemma solve_flag_decides_solvability_witness :
  wf classic_board /\ consistent classic_board /\
  exists r b' tr, Board.solve classic_board = Board.Returned r b' tr /\
    (r = true <-> solvable classic_board).
Proof.
  split; [apply classic_board_wf|]. split; [apply classic_board_consistent|].
  apply (solve_flag_decides_solvability classic_board).
  - apply classic_board_wf.
  - apply classic_board_consistent.
Defined.





(** * Further properties of construction *)

Lemma digit_of_char_range ch : is_digit ch = true -> 0 <= digit_of_char ch <= 9.
Proof. unfold is_digit, digit_of_char. lia. Qed.

(** X5. The outcome of building a cell from one character: a character
    that is not a decimal digit raises ValueError whatever the coordinates
    (the converter runs first); a digit with a coordinate outside 0-8
    raises NameError; otherwise the cell holds the digit.  The range check
    on the value can never fail for a single character. *)
Theorem from_str_value_outcome x y ch :
  Cell.from_str_value x y ch =
  if is_digit ch
  then if (0 <=? x) && (x <? 9) && ((0 <=? y) && (y <? 9))
       then Ok (Cell.mk x y (digit_of_char ch))
       else Raise NameError
  else Raise ValueError.
Proof.
  unfold Cell.from_str_value, Cell.init. cbn [Cell.int].
  fold (is_digit ch). destruct (is_digit ch) eqn:Hd; [|done].
  cbn [mbind result_bind]. fold (digit_of_char ch).
  unfold Cell.x_range, Cell.y_range, Cell.value_range, raise_unless.
  destruct ((0 <=? x) && (x <? 9)); [|done]. cbn [mbind result_bind].
  destruct ((0 <=? y) && (y <? 9)); [|done]. cbn [mbind result_bind andb].
  pose proof (digit_of_char_range ch Hd).
  destruct (Z.leb_spec 0 (digit_of_char ch)); [|lia].
  destruct (Z.leb_spec (digit_of_char ch) 9); [|lia]. done.
Qed.

Lemma mapM_result_total {A B} (f : A -> result B) l :
  (forall i a, l !! i = Some a -> exists b, f a = Ok b) ->
  exists k, mapM f l = Ok k.
Proof.
  induction l as [|a l IH]; intros H; [by exists []|].
  destruct (H 0%nat a eq_refl) as [y Hy].
  destruct IH as [k Hk]; [intros i a'; apply (H (S i))|].
  exists (y :: k). by rewrite mapM_result_cons, Hy, Hk.
Qed.

Lemma Row_from_array_values y array r :
  Row.from_array y array = Ok r ->
  Cell.value <$> Row.cells r = digit_of_char <$> array /\
  forall ch, ch ∈ array -> is_digit ch = true.
Proof.
  unfold Row.from_array.
  destruct (mapM _ (enumerate array)) as [cells|] eqn:Hm; [|done]. simpl.
  unfold Row.init. destruct (Row.validate_ix y); [|done]. simpl.
  destruct (Row.validate_cells cells); [|done]. simpl. intros [= <-]. simpl.
  apply mapM_result_Ok in Hm as [Hlen Hall]. unfold enumerate in *.
  rewrite length_enumerate_from in Hlen.
  assert (forall j ch, array !! j = Some ch ->
            is_digit ch = true /\
            exists c, cells !! j = Some c /\ Cell.value c = digit_of_char ch)
    as Hcell.
  { intros j ch Hch. destruct (Hall j (Z.of_nat j, ch)) as (c & Hc & Hinit).
    { by rewrite lookup_enumerate_from, Hch. }
    simpl in Hinit. rewrite from_str_value_outcome in Hinit.
    destruct (is_digit ch); [|done]. split; [done|]. exists c.
    split; [done|]. destruct (_ && _) in Hinit; [|done].
    by injection Hinit as <-. }
  split.
  - apply list_eq. intros j. rewrite !list_lookup_fmap.
    destruct (array !! j) as [ch|] eqn:Hch.
    + destruct (Hcell j ch Hch) as (_ & c & -> & Hv). simpl. by rewrite Hv.
    + apply lookup_ge_None in Hch. rewrite (proj2 (lookup_ge_None _ _)); [done|].
      lia.
  - intros ch [j Hj]%list_elem_of_lookup_1. by destruct (Hcell j ch Hj).
Qed.

Lemma Row_from_array_total y array :
  0 <= y < 9 -> length array = 9%nat ->
  (forall ch, ch ∈ array -> is_digit ch = true) ->
  exists r, Row.from_array y array = Ok r.
Proof.
  intros Hy Hlen Hdig. unfold Row.from_array.
  destruct (mapM_result_total
              (fun xv => Cell.from_str_value (fst xv) y (snd xv))
              (enumerate array)) as [cells Hcells].
  { intros j [x ch]. unfold enumerate. rewrite lookup_enumerate_from.
    destruct (array !! j) as [ch'|] eqn:Hch; [|done]. intros [= <- <-].
    simpl. rewrite from_str_value_outcome.
    rewrite (Hdig ch') by (by apply list_elem_of_lookup_2 with j).
    apply lookup_lt_Some in Hch.
    destruct (Z.leb_spec 0 (0 + Z.of_nat j)); [|lia].
    destruct (Z.ltb_spec (0 + Z.of_nat j) 9); [|lia].
    destruct (Z.leb_spec 0 y); [|lia]. destruct (Z.ltb_spec y 9); [|lia].
    simpl. eauto. }
  rewrite Hcells. simpl. unfold Row.init, Row.validate_ix, Row.validate_cells.
  destruct (Z.leb_spec 0 y); [|lia]. destruct (Z.ltb_spec y 9); [|lia]. simpl.
  apply mapM_result_Ok in Hcells as [Hl _]. unfold enumerate in Hl.
  rewrite length_enumerate_from, Hlen in Hl. rewrite Hl. simpl. eauto.
Qed.

Lemma digits_of_from_array array b :
  Board.from_array_of_strings array = Ok b ->
  digits_of b = digits_of_rows array /\
  forall row ch, row ∈ array -> ch ∈ list_ascii_of_string row ->
                 is_digit ch = true.
Proof.
  unfold Board.from_array_of_strings.
  destruct (mapM _ (enumerate array)) as [rows|] eqn:Hm; [|done]. simpl.
  unfold Board.init. destruct (Board.validate_rows rows); [|done]. simpl.
  intros [= <-]. apply mapM_result_Ok in Hm as [Hlen Hall].
  unfold enumerate in *. rewrite length_enumerate_from in Hlen.
  assert (forall i row, array !! i = Some row ->
            exists r, rows !! i = Some r /\
              Row.from_array (Z.of_nat i) (list_ascii_of_string row) = Ok r)
    as Hrow.
  { intros i row Hi. destruct (Hall i (Z.of_nat i, row)) as (r & ? & ?).
    { by rewrite lookup_enumerate_from, Hi. }
    by exists r. }
  split.
  - unfold digits_of, digits_of_rows. simpl. apply list_eq. intros i.
    rewrite !list_lookup_fmap. destruct (array !! i) as [row|] eqn:Hi.
    + destruct (Hrow i row Hi) as (r & -> & Hfrom). simpl. f_equal.
      by apply Row_from_array_values in Hfrom as [? _].
    + apply lookup_ge_None in Hi. rewrite (proj2 (lookup_ge_None _ _)); [done|].
      lia.
  - intros row ch [i Hi]%list_elem_of_lookup_1 Hch.
    destruct (Hrow i row Hi) as (r & _ & Hfrom).
    apply Row_from_array_values in Hfrom as [_ Hd]. by apply Hd.
Qed.

Lemma from_array_of_strings_total array :
  length array = 9%nat ->
  (forall row, row ∈ array ->
     String.length row = 9%nat /\
     forall ch, ch ∈ list_ascii_of_string row -> is_digit ch = true) ->
  exists b, Board.from_array_of_strings array = Ok b.
Proof.
  intros Hlen Hrows. unfold Board.from_array_of_strings.
  destruct (mapM_result_total
              (fun yrow => Row.from_array (fst yrow)
                             (list_ascii_of_string (snd yrow)))
              (enumerate array)) as [rows Hm].
  { intros i [y row]. unfold enumerate. rewrite lookup_enumerate_from.
    destruct (array !! i) as [row'|] eqn:Hi; [|done]. intros [= <- <-].
    simpl. destruct (Hrows row') as [Hl Hd];
      [by apply list_elem_of_lookup_2 with i|].
    apply lookup_lt_Some in Hi.
    apply Row_from_array_total; [lia|by rewrite length_list_ascii|done]. }
  rewrite Hm. simpl. unfold Board.init, Board.validate_rows.
  apply mapM_result_Ok in Hm as [Hl _]. unfold enumerate in Hl.
  rewrite length_enumerate_from, Hlen in Hl. rewrite Hl. simpl. eauto.
Qed.

Lemma digits_of_board_of_digits g : digits_of (board_of_digits g) = g.
Proof.
  unfold digits_of, board_of_digits. simpl. apply list_eq. intros i.
  rewrite list_lookup_fmap, list_lookup_imap.
  destruct (g !! i) as [vs|]; [|done]. simpl. f_equal.
  apply list_eq. intros j. rewrite list_lookup_fmap, list_lookup_imap.
  by destruct (vs !! j).
Qed.

Lemma wf_board_of_digits g :
  length g = 9%nat ->
  (forall vs, vs ∈ g -> length vs = 9%nat /\ forall v, v ∈ vs -> 0 <= v <= 9) ->
  wf (board_of_digits g).
Proof.
  intros Hlen Hg. split; [simpl; by rewrite length_imap|].
  intros i r. simpl. rewrite list_lookup_imap.
  destruct (g !! i) as [vs|] eqn:Hi; [|done]. simpl. intros [= <-].
  destruct (Hg vs) as [Hl Hv]; [by apply list_elem_of_lookup_2 with i|].
  split; [done|]. split; [simpl; by rewrite length_imap|].
  intros j c. simpl. rewrite list_lookup_imap.
  destruct (vs !! j) as [v|] eqn:Hj; [|done]. simpl. intros [= <-].
  repeat split; simpl; try done; apply Hv; by apply list_elem_of_lookup_2 with j.
Qed.

Lemma wf_digits b :
  wf b ->
  length (digits_of b) = 9%nat /\
  forall vs, vs ∈ digits_of b ->
    length vs = 9%nat /\ forall v, v ∈ vs -> 0 <= v <= 9.
Proof.
  intros [Hlen Hrows]. unfold digits_of. split; [by rewrite length_fmap|].
  intros vs (r & -> & [i Hi]%list_elem_of_lookup_1)%list_elem_of_fmap.
  destruct (Hrows i r Hi) as (_ & Hl & Hc). split; [by rewrite length_fmap|].
  intros v (c & -> & [j Hj]%list_elem_of_lookup_1)%list_elem_of_fmap.
  by destruct (Hc j c Hj) as (_ & _ & ?).
Qed.

Lemma wf_is_board_of_digits b : wf b -> b = board_of_digits (digits_of b).
Proof.
  intros Hwf. destruct (wf_digits b Hwf) as [Hl Hg].
  apply wf_digits_eq; [done|by apply wf_board_of_digits|].
  by rewrite digits_of_board_of_digits.
Qed.

(** X6. Construction succeeds exactly on nine rows of nine decimal digits,
    and the board it returns has those digits, every cell at its place. *)
Theorem from_array_of_strings_iff array b :
  Board.from_array_of_strings array = Ok b <->
  length array = 9%nat /\
  (forall row, row ∈ array ->
     String.length row = 9%nat /\
     forall ch, ch ∈ list_ascii_of_string row -> is_digit ch = true) /\
  b = board_of_digits (digits_of_rows array).
Proof.
  split.
  - intros H. pose proof (from_array_of_strings_Ok array b H)
      as (Hwf & Hlen & Hrows).
    pose proof (digits_of_from_array array b H) as [Hd Hdig].
    split; [done|]. split.
    + intros row Hrow. split; [by apply Hrows|]. intros ch. by apply Hdig.
    + rewrite <- Hd. by apply wf_is_board_of_digits.
  - intros (Hlen & Hrows & ->).
    destruct (from_array_of_strings_total array Hlen Hrows) as [b' H].
    rewrite H. f_equal.
    pose proof (from_array_of_strings_wf array b' H) as Hwf.
    pose proof (digits_of_from_array array b' H) as [Hd _].
    rewrite <- Hd. by apply wf_is_board_of_digits.
Qed.

(** X7. A grid of nine rows of nine characters that contains a character
    other than a decimal digit is rejected with ValueError. *)
Theorem from_array_of_strings_rejects_non_digit array row ch :
  length array = 9%nat ->
  (forall row', row' ∈ array -> String.length row' = 9%nat) ->
  row ∈ array -> ch ∈ list_ascii_of_string row -> is_digit ch = false ->
  Board.from_array_of_strings array = Raise ValueError.
Proof.
  intros Hlen Hrows Hrow Hch Hd.
  destruct (Board.from_array_of_strings array) as [b|e] eqn:H.
  - apply from_array_of_strings_iff in H as (_ & Hall & _).
    destruct (Hall row Hrow) as [_ Hdig]. rewrite (Hdig ch Hch) in Hd. done.
  - f_equal. apply (from_array_of_strings_Raise array e H); [lia|].
    intros row' Hrow'. rewrite (Hrows row' Hrow'). lia.
Qed.

Lemma from_array_of_strings_rejects_non_digit_witness :
  length letter_rows = 9%nat /\
  (forall row', row' ∈ letter_rows -> String.length row' = 9%nat) /\
  "0030A0600"%string ∈ letter_rows /\
  "A"%char ∈ list_ascii_of_string "0030A0600" /\
  is_digit "A" = false /\
  Board.from_array_of_strings letter_rows = Raise ValueError.
Proof.
  assert (forall row', row' ∈ letter_rows -> String.length row' = 9%nat) as H.
  { intros row' Hin. unfold letter_rows in Hin.
    repeat (apply elem_of_cons in Hin as [->|Hin]; [reflexivity|]).
    by apply elem_of_nil in Hin. }
  assert ("A"%char ∈ list_ascii_of_string "0030A0600") as HA.
  { simpl. do 4 right. left. }
  split; [reflexivity|]. split; [exact H|]. split; [left|].
  split; [exact HA|]. split; [reflexivity|].
  apply (from_array_of_strings_rejects_non_digit letter_rows
           "0030A0600"%string "A"%char).
  - reflexivity.
  - exact H.
  - left.
  - exact HA.
  - reflexivity.
Defined.

Lemma digit_char_round_trip v :
  0 <= v <= 9 ->
  is_digit (char_of_digit v) = true /\ digit_of_char (char_of_digit v) = v.
Proof.
  intros Hv. unfold is_digit, digit_of_char, char_of_digit.
  rewrite nat_ascii_embedding by lia. lia.
Qed.


Lemma length_string_of_list_ascii l :
  String.length (string_of_list_ascii l) = length l.
Proof. induction l; simpl; auto. Qed.

Lemma list_fmap_ext_elem {A B} (f g : A -> B) (l : list A) :
  (forall a, a ∈ l -> f a = g a) -> f <$> l = g <$> l.
Proof.
  intros H. apply list_fmap_ext. intros i a Ha. apply H.
  by apply list_elem_of_lookup_2 with i.
Qed.

Lemma digits_of_rows_of_digits g :
  (forall vs, vs ∈ g -> forall v, v ∈ vs -> 0 <= v <= 9) ->
  digits_of_rows (rows_of_digits g) = g.
Proof.
  intros Hg. unfold digits_of_rows, rows_of_digits.
  rewrite <- list_fmap_compose. rewrite <- (list_fmap_id g) at 2.
  apply list_fmap_ext_elem. intros vs Hvs. simpl.
  rewrite list_ascii_of_string_of_list_ascii, <- list_fmap_compose.
  rewrite <- (list_fmap_id vs) at 2. apply list_fmap_ext_elem.
  intros v Hv. simpl. by apply digit_char_round_trip, (Hg vs).
Qed.


(** X8. Every board that satisfies the invariants of the data model (in
    particular every board [solve] leaves) is what the constructor builds
    from the rows of its own digits. *)
Theorem board_rows_round_trip b :
  wf b ->
  Board.from_array_of_strings (rows_of_digits (digits_of b)) = Ok b.
Proof.
  intros Hwf. destruct (wf_digits b Hwf) as [Hlen Hg].
  apply from_array_of_strings_iff. split; [|split].
  - unfold rows_of_digits. by rewrite length_fmap.
  - intros row (vs & -> & Hvs)%list_elem_of_fmap.
    destruct (Hg vs Hvs) as [Hl Hv].
    split; [by rewrite length_string_of_list_ascii, length_fmap|].
    intros ch. rewrite list_ascii_of_string_of_list_ascii.
    intros (v & -> & Hin)%list_elem_of_fmap.
    by apply digit_char_round_trip, Hv.
  - rewrite digits_of_rows_of_digits; [by apply wf_is_board_of_digits|].
    intros vs Hvs. by apply Hg.
Qed.

Lemma board_rows_round_trip_witness :
  wf classic_solved /\
  Board.from_array_of_strings (rows_of_digits (digits_of classic_solved)) =
  Ok classic_solved.
Proof.
  split; [apply classic_solved_wf|].
  apply (board_rows_round_trip classic_solved), classic_solved_wf.
Defined.



(** * Further properties of the display and of columns *)







Lemma mapM_result_ext {A B} (f g : A -> result B) l :
  (forall a, a ∈ l -> f a = g a) -> mapM f l = mapM g l.
Proof.
  induction l as [|a l IH]; intros H; [done|].
  rewrite !mapM_result_cons, (H a) by (by left).
  rewrite IH; [done|]. intros a' Ha'. apply H. by right.
Qed.

Lemma py_index_out_of_range {A} (l : list A) i :
  i < - Z.of_nat (length l) \/ Z.of_nat (length l) <= i ->
  py_index l i = Raise IndexError.
Proof.
  intros Hi. unfold py_index. cbv zeta.
  destruct (Z.leb_spec 0 i).
  - destruct (Z.leb_spec 0 i); [|lia].
    destruct (Z.ltb_spec i (Z.of_nat (length l))); [lia|done].
  - destruct (Z.leb_spec 0 (Z.of_nat (length l) + i)); [lia|done].
Qed.

Lemma py_index_negative {A} (l : list A) i :
  - Z.of_nat (length l) <= i < 0 ->
  py_index l i = py_index l (Z.of_nat (length l) + i).
Proof.
  intros Hi. unfold py_index. cbv zeta.
  destruct (Z.leb_spec 0 i); [lia|].
  destruct (Z.leb_spec 0 (Z.of_nat (length l) + i)); [|lia].
  destruct (Z.leb_spec 0 (Z.of_nat (length l) + i)); [|lia]. done.
Qed.

(** X11. [get_column] on a constructed board: an index in 0-8 gives the
    nine cells of that column from top to bottom; an index in -9 .. -1
    counts columns from the right; any other index raises IndexError. *)
Theorem get_column_behaviour b i :
  wf b ->
  (0 <= i < 9 ->
   exists col, Board.get_column b i = Ok col /\ length col = 9%nat /\
     forall k, col !! k = Board.cell_at b (k, Z.to_nat i)) /\
  (-9 <= i < 0 -> Board.get_column b i = Board.get_column b (9 + i)) /\
  (i < -9 \/ 9 <= i -> Board.get_column b i = Raise IndexError).
Proof.
  intros Hwf. split; [|split].
  - intros Hi. destruct (get_column_wf b (Z.to_nat i) Hwf) as (col & Hc & Hl);
      [lia|].
    rewrite Z2Nat.id in Hc by lia. exists col. split; [done|]. split; [|done].
    apply mapM_result_Ok in Hc as [-> _]. by destruct Hwf.
  - intros Hi. unfold Board.get_column. apply mapM_result_ext.
    intros r [k Hk]%list_elem_of_lookup_1. destruct Hwf as [_ Hrows].
    destruct (Hrows k r Hk) as (_ & Hl & _).
    rewrite py_index_negative by (rewrite Hl; lia). by rewrite Hl.
  - intros Hi. unfold Board.get_column. destruct Hwf as [Hlen Hrows].
    destruct (Board.rows b) as [|r rs] eqn:E; [done|].
    destruct (Hrows 0%nat r) as (_ & Hl & _); [done|].
    rewrite mapM_result_cons, py_index_out_of_range; [done|]. rewrite Hl. lia.
Qed.

Lemma get_column_behaviour_witness :
  wf classic_board /\
  (0 <= -1 < 9 ->
   exists col, Board.get_column classic_board (-1) = Ok col /\
     length col = 9%nat /\
     forall k, col !! k = Board.cell_at classic_board (k, Z.to_nat (-1))) /\
  (-9 <= -1 < 0 ->
   Board.get_column classic_board (-1) =
   Board.get_column classic_board (9 + -1)) /\
  (-1 < -9 \/ 9 <= -1 ->
   Board.get_column classic_board (-1) = Raise IndexError).
Proof.
  split; [apply classic_board_wf|].
  apply (get_column_behaviour classic_board (-1)), classic_board_wf.
Defined.

(** * Properties of the loader *)

Lemma list_ascii_of_string_append a b :
  list_ascii_of_string (String.append a b) =
  list_ascii_of_string a ++ list_ascii_of_string b.
Proof. induction a as [|ch a IH]; simpl; [done|]. by rewrite IH. Qed.

Lemma is_digit_not_space ch : is_digit ch = true -> py_isspace ch = false.
Proof. unfold is_digit, py_isspace. cbv zeta. lia. Qed.

Lemma lstrip_chars_spaces ws l :
  (forall ch, ch ∈ ws -> py_isspace ch = true) ->
  lstrip_chars (ws ++ l) = lstrip_chars l.
Proof.
  induction ws as [|c ws IH]; intros H; simpl; [done|].
  rewrite (H c) by (by left). apply IH. intros ch Hch. apply H. by right.
Qed.

Lemma lstrip_chars_keeps l :
  (forall ch, ch ∈ l -> py_isspace ch = false) -> lstrip_chars l = l.
Proof.
  destruct l as [|c l]; intros H; simpl; [done|]. by rewrite (H c) by (by left).
Qed.

(** Stripping a row of digits followed by its line terminator gives the
    row. *)
Lemma py_strip_digits row eol :
  (forall ch, ch ∈ list_ascii_of_string row -> is_digit ch = true) ->
  (forall ch, ch ∈ list_ascii_of_string eol -> py_isspace ch = true) ->
  py_strip (String.append row eol) = row.
Proof.
  intros Hrow Heol. unfold py_strip. rewrite list_ascii_of_string_append.
  rewrite <- (string_of_list_ascii_of_string row) at 2. f_equal.
  assert (forall ch, ch ∈ list_ascii_of_string row -> py_isspace ch = false)
    as Hns by (intros ch Hch; by apply is_digit_not_space, Hrow).
  revert Hns Heol. generalize (list_ascii_of_string row) as r.
  generalize (list_ascii_of_string eol) as e. intros e r Hns Heol.
  destruct r as [|c r].
  - simpl. rewrite <- (app_nil_r e) at 1.
    rewrite lstrip_chars_spaces by done. done.
  - assert (lstrip_chars ((c :: r) ++ e) = (c :: r) ++ e) as ->.
    { simpl. by rewrite (Hns c) by (by left). }
    rewrite rev_app_distr, lstrip_chars_spaces.
    + rewrite lstrip_chars_keeps; [apply rev_involutive|].
      intros ch Hch. apply Hns. apply list_elem_of_In.
      apply list_elem_of_In in Hch. by apply in_rev.
    + intros ch Hch. apply Heol. apply list_elem_of_In.
      apply list_elem_of_In in Hch. by apply in_rev.
Qed.

Lemma startswith_G_digits row eol :
  (forall ch, ch ∈ list_ascii_of_string row -> is_digit ch = true) ->
  (forall ch, ch ∈ list_ascii_of_string eol -> py_isspace ch = true) ->
  startswith_G (String.append row eol) = false.
Proof.
  intros Hrow Heol. destruct row as [|c row]; simpl.
  - destruct eol as [|c eol]; simpl; [done|].
    destruct (Ascii.eqb_spec c "G"%char) as [->|]; [|done].
    by rewrite <- (Heol "G"%char) by (by left).
  - destruct (Ascii.eqb_spec c "G"%char) as [->|]; [|done].
    by rewrite <- (Hrow "G"%char) by (by left).
Qed.

(** Reading the lines of one puzzle appends its rows to those collected. *)
Lemma read_lines_puzzle eol rows0 rows file :
  (forall ch, ch ∈ list_ascii_of_string eol -> py_isspace ch = true) ->
  (forall row ch, row ∈ rows -> ch ∈ list_ascii_of_string row ->
                  is_digit ch = true) ->
  read_lines rows0 (puzzle_lines eol rows ++ file) =
  read_lines (rows0 ++ rows) file.
Proof.
  intros Heol. revert rows0. induction rows as [|row rows IH];
    intros rows0 Hrows; simpl.
  - by rewrite app_nil_r.
  - rewrite startswith_G_digits, py_strip_digits; try done;
      try (intros ch; apply Hrows; by left).
    rewrite IH; [by rewrite <- app_assoc|].
    intros row' ch Hrow'. apply Hrows. by right.
Qed.

Lemma from_array_rows_digits array b :
  Board.from_array_of_strings array = Ok b ->
  forall row ch, row ∈ array -> ch ∈ list_ascii_of_string row ->
                 is_digit ch = true.
Proof. intros H. by apply digits_of_from_array in H as [_ ?]. Qed.

Lemma read_lines_more eol rows b more bs file :
  (forall ch, ch ∈ list_ascii_of_string eol -> py_isspace ch = true) ->
  Board.from_array_of_strings rows = Ok b ->
  Forall2 (fun sp b' => startswith_G (fst sp) = true /\
                        Board.from_array_of_strings (snd sp) = Ok b')
          more bs ->
  file = (sp ← more; fst sp :: puzzle_lines eol (snd sp)) ->
  read_lines rows file = yields (b :: bs).
Proof.
  intros Heol Hb Hmore. revert rows b file Hb.
  induction Hmore as [|[sep p] b' more bs [Hsep Hp] _ IH];
    intros rows b file Hb ->.
  - simpl. unfold yield_board. by rewrite Hb.
  - cbn [mbind list_bind fst snd]. simpl in Hsep, Hp.
    change ((sep :: puzzle_lines eol p) ++ ?l)
      with (sep :: (puzzle_lines eol p ++ l)).
    cbn [read_lines]. rewrite Hsep. unfold yield_board at 1. rewrite Hb.
    unfold yields. cbn [foldr]. f_equal.
    rewrite (read_lines_puzzle eol [] p) by
      (done || by apply (from_array_rows_digits p b')).
    by apply IH.
Qed.

(** X12. Loading a well-formed file gives back its puzzles: after the
    header, the rows of each puzzle (each followed by a terminator of
    whitespace) with a line starting with G before every puzzle but the
    first, the generator yields exactly the boards of these puzzles, in
    order, and stops. *)
Theorem generate_reads_puzzles header eol first b more bs :
  (forall ch, ch ∈ list_ascii_of_string eol -> py_isspace ch = true) ->
  Board.from_array_of_strings first = Ok b ->
  Forall2 (fun sp b' => startswith_G (fst sp) = true /\
                        Board.from_array_of_strings (snd sp) = Ok b')
          more bs ->
  generate_board_from_file_path (file_of header eol first more) =
  yields (b :: bs).
Proof.
  intros Heol Hb Hmore. unfold generate_board_from_file_path, file_of.
  cbn [tail]. rewrite (read_lines_puzzle eol [] first) by
    (done || by apply (from_array_rows_digits first b)).
  by apply (read_lines_more eol first b more bs).
Qed.

Lemma generate_reads_puzzles_witness :
  (forall ch, ch ∈ list_ascii_of_string newline -> py_isspace ch = true) /\
  Board.from_array_of_strings classic_rows = Ok classic_board /\
  Forall2 (fun sp b' => startswith_G (fst sp) = true /\
                        Board.from_array_of_strings (snd sp) = Ok b')
          [(String.append "Grid 02" newline, classic_solution)]
          [classic_solved] /\
  generate_board_from_file_path sample_file =
  yields [classic_board; classic_solved].
Proof.
  assert (forall ch, ch ∈ list_ascii_of_string newline ->
                     py_isspace ch = true) as Heol.
  { intros ch Hch. simpl in Hch. apply elem_of_cons in Hch as [->|Hch];
      [reflexivity|by apply elem_of_nil in Hch]. }
  assert (Forall2 (fun sp b' => startswith_G (fst sp) = true /\
                     Board.from_array_of_strings (snd sp) = Ok b')
            [(String.append "Grid 02" newline, classic_solution)]
            [classic_solved]) as Hmore.
  { constructor; [split; reflexivity|constructor]. }
  split; [exact Heol|]. split; [reflexivity|]. split; [exact Hmore|].
  apply (generate_reads_puzzles (String.append "Grid 01" newline) newline
           classic_rows classic_board
           [(String.append "Grid 02" newline, classic_solution)]
           [classic_solved]).
  - exact Heol.
  - reflexivity.
  - exact Hmore.
Defined.

Lemma read_lines_trailing_separator rows body g :
  startswith_G g = true ->
  gen_end (read_lines rows (body ++ [g])) <> None.
Proof.
  intros Hg. revert rows. induction body as [|line body IH]; intros rows.
  - simpl. rewrite Hg. unfold yield_board.
    destruct (Board.from_array_of_strings rows); simpl; [|done].
    by destruct (Board.from_array_of_strings []).
  - simpl. destruct (startswith_G line); [|apply IH].
    unfold yield_board. destruct (Board.from_array_of_strings rows); simpl;
      [apply IH|done].
Qed.

(** X13. The generator raises instead of stopping on a file without
    rows: when nothing follows the header, or a separator follows it
    directly, the first [next] raises ValueError; and when the last line
    of the file is a separator, iteration ends with an exception. *)
Theorem generate_empty_puzzle_raises header body g :
  startswith_G g = true ->
  generate_board_from_file_path [] = Throw ValueError /\
  generate_board_from_file_path [header] = Throw ValueError /\
  generate_board_from_file_path (header :: g :: body) = Throw ValueError /\
  gen_end (generate_board_from_file_path (header :: body ++ [g])) <> None.
Proof.
  intros Hg. split; [reflexivity|]. split; [reflexivity|]. split.
  - unfold generate_board_from_file_path. simpl. by rewrite Hg.
  - by apply read_lines_trailing_separator.
Qed.

Lemma generate_empty_puzzle_raises_witness :
  startswith_G "Grid 02" = true /\
  generate_board_from_file_path [] = Throw ValueError /\
  generate_board_from_file_path ["Grid 01"%string] = Throw ValueError /\
  generate_board_from_file_path
    ("Grid 01"%string :: "Grid 02"%string :: classic_rows) =
    Throw ValueError /\
  gen_end (generate_board_from_file_path
             ("Grid 01"%string :: classic_rows ++ ["Grid 02"%string])) <> None.
Proof.
  split; [reflexivity|].
  apply (generate_empty_puzzle_raises "Grid 01" classic_rows "Grid 02").
  reflexivity.
Defined.

Lemma read_lines_boards rows file :
  Forall wf (gen_boards (read_lines rows file)) /\
  (gen_end (read_lines rows file) = None ->
   length (gen_boards (read_lines rows file)) = S (separators file)).
Proof.
  revert rows. induction file as [|line file IH]; intros rows.
  - simpl. unfold yield_board.
    destruct (Board.from_array_of_strings rows) as [b|] eqn:Hb; simpl.
    + split; [|done]. constructor; [|constructor].
      by apply (from_array_of_strings_wf rows).
    + split; [constructor|done].
  - unfold separators. simpl. destruct (startswith_G line).
    + unfold yield_board.
      destruct (Board.from_array_of_strings rows) as [b|] eqn:Hb; simpl.
      * destruct (IH []) as [Hwf Hlen]. split.
        -- constructor; [by apply (from_array_of_strings_wf rows)|done].
        -- intros He. by rewrite (Hlen He).
      * split; [constructor|done].
    + apply IH.
Qed.

(** X14. Every board the generator yields is a 9x9 board satisfying the
    invariants, and when the generator stops without raising it has
    yielded one board more than there are separator lines after the
    header: at least one. *)
Theorem generate_yields_boards file :
  Forall wf (gen_boards (generate_board_from_file_path file)) /\
  (gen_end (generate_board_from_file_path file) = None ->
   length (gen_boards (generate_board_from_file_path file)) =
   S (separators (tail file))).
Proof. apply read_lines_boards. Qed.

(** * Properties of the script *)

Lemma corner_sum_wf b :
  wf b ->
  corner_sum b =
  Ok (value_at b (0, 0)%nat + value_at b (0, 1)%nat + value_at b (0, 2)%nat).
Proof.
  intros [Hlen Hrows]. unfold corner_sum, value_at, Board.cell_at. simpl.
  destruct (Board.rows b) as [|r rs] eqn:E; [done|]. simpl.
  destruct (Hrows 0%nat r) as (_ & Hl & _); [done|].
  destruct (Row.cells r) as [|c0 [|c1 [|c2 cs]]]; done.
Qed.

Lemma solve_true_corner b b' tr :
  wf b -> Board.solve b = Board.Returned true b' tr ->
  exists s, corner_sum b' = Ok s /\ 3 <= s <= 27 /\
            (consistent b -> 6 <= s <= 24).
Proof.
  intros Hwf H. apply solve_Solve in H.
  destruct (proj1 Solve_Try_invariant _ _ _ _ H Hwf) as (Hwf' & _ & Hres).
  destruct (Hres eq_refl) as [Hfull Hcons].
  eexists. split; [by apply corner_sum_wf|].
  assert (forall j, (j < 9)%nat -> 1 <= value_at b' (0%nat, j) <= 9) as Hv.
  { intros j Hj. pose proof (value_at_range b' (0%nat, j) Hwf').
    pose proof (full_value_at b' (0%nat, j) Hwf' Hfull) as Hnz.
    assert (value_at b' (0%nat, j) <> 0) by (apply Hnz; split; simpl; lia).
    lia. }
  pose proof (Hv 0%nat). pose proof (Hv 1%nat). pose proof (Hv 2%nat).
  split; [lia|]. intros Hc. apply consistent_iff in Hc; [|done].
  specialize (Hcons Hc).
  assert (forall i j, (i < 9)%nat -> (j < 9)%nat -> i <> j ->
            value_at b' (0%nat, i) <> value_at b' (0%nat, j)) as Hd.
  { intros i j Hi Hj Hne. apply Hcons; try (split; simpl; lia).
    - congruence.
    - by left.
    - specialize (Hv i Hi). lia. }
  pose proof (Hd 0%nat 1%nat). pose proof (Hd 0%nat 2%nat).
  pose proof (Hd 1%nat 2%nat). lia.
Qed.

Lemma main_loop_outcome g :
  Forall wf (gen_boards g) ->
  forall acc,
    main_loop acc g <> BudgetExhausted /\
    (forall e, main_loop acc g = Uncaught e -> gen_end g = Some e) /\
    (forall b, main_loop acc g = AssertionFailed b ->
               b ∈ gen_boards g /\ ~ solvable b) /\
    (forall s, main_loop acc g = Printed s ->
       gen_end g = None /\
       acc + 3 * Z.of_nat (length (gen_boards g)) <= s
         <= acc + 27 * Z.of_nat (length (gen_boards g)) /\
       (Forall consistent (gen_boards g) ->
        acc + 6 * Z.of_nat (length (gen_boards g)) <= s
          <= acc + 24 * Z.of_nat (length (gen_boards g)))).
Proof.
  induction g as [|b rest IH|e]; intros Hwf acc.
  - simpl. repeat split; try done; intros; injection H as <-; lia.
  - cbn [gen_boards] in Hwf. inversion Hwf as [|? ? Hb Hrest]; subst.
    cbn [main_loop gen_boards gen_end].
    destruct (solve_total b Hb) as (r & b' & tr & Hs). rewrite Hs.
    destruct r.
    + destruct (solve_true_corner b b' tr Hb Hs) as (s0 & -> & Hr & Hr').
      destruct (IH Hrest (acc + s0)) as (H1 & H2 & H3 & H4).
      split; [done|]. split; [done|]. split.
      * intros b0 Hb0. destruct (H3 b0 Hb0). split; [by right|done].
      * intros s Hp. destruct (H4 s Hp) as (He & Hbnd & Hbnd').
        split; [done|]. rewrite length_cons, Nat2Z.inj_succ.
        split; [lia|]. intros Hall. inversion Hall; subst.
        specialize (Hr' ltac:(done)). specialize (Hbnd' ltac:(done)). lia.
    + split; [done|]. split; [done|]. split; [|done].
      intros b0 [= <-]. apply solve_Solve in Hs.
      rewrite (Solve_revert _ _ _ Hs). split; [by left|].
      intros Hsol. destruct (solvable_completion b Hsol) as [s Hcomp].
      by pose proof (proj1 Solve_Try_complete _ _ _ _ Hs Hb s Hcomp).
  - simpl. repeat split; try done. by intros e' [= ->].
Qed.


(** X16. When the assertion of the script fails, the board it reports is
    one the generator yielded, unchanged by the failed search, and no
    solved grid keeps its clues. *)
Theorem main_assertion_means_unsolvable file b :
  main file = AssertionFailed b ->
  b ∈ gen_boards (generate_board_from_file_path file) /\ ~ solvable b.
Proof.
  destruct (main_loop_outcome (generate_board_from_file_path file)
              (proj1 (generate_yields_boards file)) 0) as (_ & _ & H & _).
  apply H.
Qed.

Lemma main_assertion_means_unsolvable_witness :
  main conflict_file = AssertionFailed conflict_board /\
  conflict_board ∈ gen_boards (generate_board_from_file_path conflict_file) /\
  ~ solvable conflict_board.
Proof.
  split; [vm_compute; reflexivity|].
  apply (main_assertion_means_unsolvable conflict_file conflict_board).
  vm_compute. reflexivity.
Defined.



Lemma main_loop_prints g :
  Forall wf (gen_boards g) -> Forall solvable (gen_boards g) ->
  gen_end g = None ->
  forall acc, exists s, main_loop acc g = Printed s.
Proof.
  induction g as [|b rest IH|e]; intros Hwf Hsol He acc.
  - by exists acc.
  - cbn [gen_boards] in Hwf, Hsol. cbn [gen_end] in He.
    inversion Hwf as [|? ? Hb Hrest]; subst.
    inversion Hsol as [|? ? Hsb Hsrest]; subst. cbn [main_loop].
    destruct (solve_total b Hb) as (r & b' & tr & Hs). rewrite Hs.
    destruct (solvable_completion b Hsb) as [s Hcomp].
    pose proof (proj1 Solve_Try_complete _ _ _ _
                  (solve_Solve _ _ _ _ Hs) Hb s Hcomp) as ->.
    destruct (solve_true_corner b b' tr Hb Hs) as (s0 & -> & _).
    by apply IH.
  - done.
Qed.

(** X18. When the generator stops without raising and every puzzle it
    yields has a solution, the script prints its sum: the assertion never
    fails on a solvable puzzle. *)
Theorem main_prints_when_solvable file :
  gen_end (generate_board_from_file_path file) = None ->
  Forall solvable (gen_boards (generate_board_from_file_path file)) ->
  exists s, main file = Printed s.
Proof.
  intros He Hsol. apply main_loop_prints; [|done..].
  apply generate_yields_boards.
Qed.

Lemma classic_solved_solvable : solvable classic_solved.
Proof.
  exists classic_solved. split; [apply classic_solved_wf|].
  split; [apply classic_solved_solved|apply extends_refl].
Qed.

Lemma main_prints_when_solvable_witness :
  gen_end (generate_board_from_file_path sample_file) = None /\
  Forall solvable (gen_boards (generate_board_from_file_path sample_file)) /\
  exists s, main sample_file = Printed s.
Proof.
  assert (Forall solvable
            (gen_boards (generate_board_from_file_path sample_file))) as H.
  { change (Forall solvable [classic_board; classic_solved]).
    constructor; [apply classic_board_solvable|].
    constructor; [apply classic_solved_solvable|constructor]. }
  split; [reflexivity|]. split; [exact H|].
  apply (main_prints_when_solvable sample_file); [reflexivity|exact H].
Defined.

(** * Further properties of the queries *)

(** X19. On a board without conflicts, [is_valid] accepts a digit for an
    empty cell exactly when writing it there leaves the board without
    conflicts. *)
Theorem is_valid_iff_consistent b p n c :
  wf b -> consistent b ->
  Board.cell_at b p = Some c -> Cell.value c = 0 -> 1 <= n <= 9 ->
  Board.is_valid b n p = Ok true <-> consistent (Board.set_value b p n).
Proof.
  intros Hwf Hcons Hc Hv Hn.
  assert (wf (Board.set_value b p n)) as Hwf1
    by (apply wf_set_value; [done|lia]).
  destruct (cell_at_in_board b p c Hwf Hc) as [Hp _].
  rewrite (consistent_iff _ Hwf1). apply consistent_iff in Hcons; [|done].
  split.
  - intros Hvalid. apply (consistent_set_value b p n c); auto. lia.
  - intros Hc1. destruct (is_valid_spec b n p Hwf Hp) as (v & -> & Hiff).
    f_equal. apply Hiff. intros q Hq Hrel.
    destruct (Board.holds b n q) eqn:Hh; [exfalso|done].
    apply holds_value_at in Hh; [|lia].
    destruct (decide (p = q)) as [<-|Hne].
    + rewrite (value_at_cell b p c Hc) in Hh. lia.
    + apply (Hc1 p q Hp Hq Hne Hrel).
      * rewrite (value_at_set_value_eq b p n c Hc). lia.
      * rewrite (value_at_set_value_eq b p n c Hc).
        by rewrite value_at_set_value_ne.
Qed.

Lemma is_valid_iff_consistent_witness :
  wf classic_board /\ consistent classic_board /\
  Board.cell_at classic_board (0, 0)%nat = Some (Cell.mk 0 0 0) /\
  Cell.value (Cell.mk 0 0 0) = 0 /\ 1 <= 4 <= 9 /\
  (Board.is_valid classic_board 4 (0, 0)%nat = Ok true <->
   consistent (Board.set_value classic_board (0, 0)%nat 4)).
Proof.
  split; [apply classic_board_wf|]. split; [apply classic_board_consistent|].
  split; [reflexivity|]. split; [reflexivity|]. split; [lia|].
  apply (is_valid_iff_consistent classic_board (0, 0)%nat 4 (Cell.mk 0 0 0)).
  - apply classic_board_wf.
  - apply classic_board_consistent.
  - reflexivity.
  - reflexivity.
  - lia.
Defined.

(** X20. The search moves forward: once a nonzero value is written to the
    cell [get_empty_cell] returned, the next cell it returns comes strictly
    later in row-major order. *)
Theorem next_empty_cell_is_later b p n q :
  Board.get_empty_cell b = Some p -> n <> 0 ->
  Board.get_empty_cell (Board.set_value b p n) = Some q ->
  row_major_lt p q.
Proof.
  intros Hp Hn Hq.
  apply get_empty_cell_Some in Hp as (c & Hc & Hv & Hbefore).
  apply get_empty_cell_Some in Hq as (c' & Hc' & Hv' & _).
  assert (p <> q) as Hne.
  { intros <-. rewrite (cell_at_set_value_eq b p n c Hc) in Hc'.
    injection Hc' as <-. done. }
  rewrite cell_at_set_value_ne in Hc' by done.
  destruct (row_major_trichotomy p q) as [Hlt|[Heq|Hlt]]; [done|done|].
  by destruct (Hbefore q c' Hlt Hc').
Qed.

Lemma next_empty_cell_is_later_witness :
  Board.get_empty_cell classic_board = Some (0, 0)%nat /\ 4 <> 0 /\
  Board.get_empty_cell (Board.set_value classic_board (0, 0)%nat 4) =
    Some (0, 1)%nat /\
  row_major_lt (0, 0)%nat (0, 1)%nat.
Proof.
  split; [reflexivity|]. split; [discriminate|]. split; [reflexivity|].
  apply (next_empty_cell_is_later classic_board (0, 0)%nat 4 (0, 1)%nat).
  - reflexivity.
  - discriminate.
  - reflexivity.
Defined.

Lemma generate_yields_boards_witness :
  gen_end (generate_board_from_file_path sample_file) = None /\
  length (gen_boards (generate_board_from_file_path sample_file)) =
  S (separators (tail sample_file)).
Proof.
  split; [reflexivity|].
  apply (proj2 (generate_yields_boards sample_file)). reflexivity.
Defined.

